(** * youtube-subscription-sync-cli: a model of [src/cli.ts]

    The program is a single event-driven Node script.  Its module-level
    variables ([applicationState], [oauthState], [config], [subscriptions])
    are the fields of the record [Process]; every [await] of the source is a
    point where a continuation is parked in the table [pending] and resumed
    by an [Event] of the environment (an HTTP request on the local server, a
    response of a remote endpoint, an answer to a prompt).  Everything the
    program does to the outside world (console lines, outbound requests,
    browser opens, prompts, response bodies, [process.exit]) is recorded, in
    order, in [output]. *)

From stdpp Require Import base option list list_numbers gmap strings pretty.

Open Scope string_scope.
Open Scope list_scope.

(** ** Data model (the [type] declarations of [cli.ts]) *)

Inductive ApplicationState := login_source | login_destination.

Global Instance ApplicationState_eq_dec : EqDecision ApplicationState.
Proof. solve_decision. Defined.

Record Config := mkConfig {
  clientId : string;
  clientSecret : string;
  port : Z;
  redirectUrl : string;
  scope : string;
  authorizationUrl : string;
  tokenUrl : string
}.

Record SubscriptionSnippetResource := mkResource {
  kind : string;
  channelId : string
}.

Global Instance SubscriptionSnippetResource_eq_dec :
  EqDecision SubscriptionSnippetResource.
Proof. solve_decision. Defined.

Record SubscriptionSnippet := mkSnippet {
  title : string;
  resourceId : SubscriptionSnippetResource
}.

Global Instance SubscriptionSnippet_eq_dec : EqDecision SubscriptionSnippet.
Proof. solve_decision. Defined.

Record Subscription := mkSubscription {
  id : string;
  snippet : SubscriptionSnippet
}.

(** [nextPageToken] is declared [string] but read into a
    [string | undefined] variable, and [items] is read through [?.]: both
    fields may be absent from the JSON body. *)
Record SubscriptionsResponse := mkPage {
  nextPageToken : option string;
  items : option (list Subscription)
}.

(** Body of the token endpoint's answer, [{ access_token?: string }]. *)
Record TokenBody := mkTokenBody { access_token : option string }.

(** What [fetch] resolves to: the [ok] flag, the status, and what
    [await response.json()] gives: the parsed body, or [None] when the body
    is not JSON and the call rejects. *)
Record Response (A : Type) := mkResponse {
  ok : bool;
  status : Z;
  json : option A
}.
Arguments mkResponse {A} _ _ _.
Arguments ok {A} _.
Arguments status {A} _.
Arguments json {A} _.

(** An element of the array held in [subscriptions]: a snippet, or the
    JavaScript value [undefined] ([None]). *)
Definition Entry := option SubscriptionSnippet.

(** A value of [ctx.query]: absent, given once, or given several times. *)
Inductive QueryValue :=
| QUndefined
| QString (s : string)
| QArray (l : list string).

Inductive Effect :=
| ConsoleLog (line : string)
| ConsoleLogDiagnostic (line : string) (status : option Z)
| FetchGet (url : string) (authorization : string)
| FetchPost (url : string) (authorization : option string)
            (body : option SubscriptionSnippetResource)
| OpenBrowser (url : string)
| InquirerConfirm (message : string)
| CtxBody (body : string)
| ProcessExit (code : Z)
| UnhandledRejection
| HandlerRejected.
(* [UnhandledRejection]: the promise of a call that nobody awaits has
   rejected; what the runtime then does is not part of the program.
   [HandlerRejected]: the promise of a route handler has rejected; the
   server library answers the request with an error of its own. *)

Global Instance Effect_eq_dec : EqDecision Effect.
Proof. solve_decision. Defined.

(** ** JavaScript primitives used by the source *)

(** Truthiness of a [string | undefined]: [undefined] and the empty string
    are falsy. *)
Definition truthy (v : option string) : bool :=
  match v with
  | Some s => bool_decide (s ≠ "")
  | None => false
  end.

(** Truthiness of a query value: an array is an object, hence truthy. *)
Definition qtruthy (v : QueryValue) : bool :=
  match v with
  | QUndefined => false
  | QString s => bool_decide (s ≠ "")
  | QArray _ => true
  end.

(** [typeof v === "string"]. *)
Definition typeof_string (v : QueryValue) : bool :=
  match v with QString _ => true | _ => false end.

(** [v !== s] for a string [s]: values of different types are never
    strictly equal. *)
Definition strict_neq (v : QueryValue) (s : string) : bool :=
  match v with
  | QString s' => bool_decide (s' ≠ s)
  | _ => true
  end.

(** The string held by a query value that passed [typeof_string]. *)
Definition query_string (v : QueryValue) : string :=
  match v with QString s => s | _ => "" end.

(** [xs.concat(arg)]: an array argument is spread, any other value (here
    [undefined]) is appended as one element. *)
Definition array_concat (xs : list Entry) (arg : option (list Entry))
  : list Entry :=
  match arg with
  | Some ys => xs ++ ys
  | None => xs ++ [None]
  end.

(** [arr?.map(f)]. *)
Definition optional_map {A B} (f : A → B) (arr : option (list A))
  : option (list B) :=
  match arr with
  | Some l => Some (f <$> l)
  | None => None
  end.

(** ** Subscription Enumerator: [getAllSubscriptions] *)

Definition subscriptionsUrl (nextPage : option string) : string :=
  "https://youtube.googleapis.com/youtube/v3/subscriptions?part=id,snippet&maxResults=50&mine=true"
  +:+ (if truthy nextPage then "&pageToken=" +:+ default "" nextPage else "").

(** The request issued at the top of the [do] body. *)
Definition fetchPage (accessToken : string) (nextPage : option string)
  : Effect :=
  FetchGet (subscriptionsUrl nextPage) ("Bearer " +:+ accessToken).

(** How one pass through the [do] body ends: [return], another pass, or
    an exception out of [await response.json()]; each with the array the
    loop holds at that point. *)
Inductive Iteration :=
| LoopReturn (subscriptions : list Entry)
| LoopAgain (nextPage : option string) (subscriptions : list Entry)
| LoopThrow (subscriptions : list Entry).

(** The [do] body after [fetch] has resolved to [response].  On a response
    that is not [ok] the arguments of [console.log] are evaluated first, so
    [response.json()] is awaited before anything is logged or returned. *)
Definition iteration (subscriptions : list Entry)
    (response : Response SubscriptionsResponse) : list Effect * Iteration :=
  if negb (ok response) then
    match json response with
    | Some _ =>
      ([ConsoleLogDiagnostic "Failed to load subscriptions"
          (Some (status response))],
       LoopReturn subscriptions)
    | None => ([], LoopThrow subscriptions)
    end
  else
    match json response with
    | Some body =>
      let nextPage := nextPageToken body in
      let subscriptions :=
        array_concat subscriptions
          (optional_map (λ item, Some (snippet item)) (items body)) in
      if truthy nextPage then ([], LoopAgain nextPage subscriptions)
      else ([], LoopReturn subscriptions)
    | None => ([], LoopThrow subscriptions)
    end.

(** Outcome of running the loop against the responses received so far:
    the promise has resolved, the loop is suspended at [await fetch], or the
    promise has rejected. *)
Inductive Enumeration :=
| Resolved (subscriptions : list Entry)
| Suspended (subscriptions : list Entry)
| Threw (subscriptions : list Entry).

Fixpoint enumerate (accessToken : string) (nextPage : option string)
    (subscriptions : list Entry)
    (responses : list (Response SubscriptionsResponse))
  : list Effect * Enumeration :=
  match responses with
  | [] => ([fetchPage accessToken nextPage], Suspended subscriptions)
  | response :: rest =>
    match iteration subscriptions response with
    | (effects, LoopReturn subscriptions') =>
      (fetchPage accessToken nextPage :: effects, Resolved subscriptions')
    | (effects, LoopAgain nextPage' subscriptions') =>
      let '(more, result) :=
        enumerate accessToken nextPage' subscriptions' rest in
      (fetchPage accessToken nextPage :: effects ++ more, result)
    | (effects, LoopThrow subscriptions') =>
      (fetchPage accessToken nextPage :: effects, Threw subscriptions')
    end
  end.

Definition getAllSubscriptions (accessToken : string)
    (responses : list (Response SubscriptionsResponse))
  : list Effect * Enumeration :=
  enumerate accessToken None [] responses.

(** The array the loop holds after an iteration, and the one it holds when
    it has resolved, is suspended or has rejected. *)
Definition accumulated (it : Iteration) : list Entry :=
  match it with
  | LoopReturn subscriptions => subscriptions
  | LoopAgain _ subscriptions => subscriptions
  | LoopThrow subscriptions => subscriptions
  end.


(** How the enumeration ends when an iteration does not go on. *)
Definition finished (it : Iteration) : Enumeration :=
  match it with
  | LoopThrow subscriptions => Threw subscriptions
  | _ => Resolved (accumulated it)
  end.

(** Vocabulary for statements about pages. *)

(** The continuation token a response carries, if any. *)
Definition page_token (r : Response SubscriptionsResponse) : option string :=
  json r ≫= nextPageToken.

(** The [items] array of a response, if its body is JSON and has one. *)
Definition page_items (r : Response SubscriptionsResponse)
  : option (list Subscription) :=
  json r ≫= items.

(** The loop goes on after this response. *)
Definition continues (r : Response SubscriptionsResponse) : bool :=
  ok r && truthy (page_token r).

(** The snippets of the [items] array of a page, in the page's order. *)
Definition page_snippets (r : Response SubscriptionsResponse) : list Entry :=
  (λ item, Some (snippet item)) <$> default [] (page_items r).

Definition page_size (r : Response SubscriptionsResponse) : nat :=
  length (default [] (page_items r)).

Definition has_items (r : Response SubscriptionsResponse) : Prop :=
  is_Some (page_items r).

(** What a successful page adds to the accumulated array. *)
Definition page_entries (r : Response SubscriptionsResponse) : list Entry :=
  match json r with
  | Some body =>
    match items body with
    | Some l => (λ item, Some (snippet item)) <$> l
    | None => [None]
    end
  | None => []
  end.

(** The first [n] responses of a response stream. *)
Definition first_responses (s : nat → Response SubscriptionsResponse) (n : nat)
  : list (Response SubscriptionsResponse) :=
  s <$> seq 0 n.

(** ** Subscription Replicator: [subscribeChannel] and [loginDestination] *)

Definition subscribeUrl : string :=
  "https://youtube.googleapis.com/youtube/v3/subscriptions?part=snippet".

Definition subscribeRequest (accessToken : string)
    (subscription : SubscriptionSnippet) : Effect :=
  FetchPost subscribeUrl (Some ("Bearer " +:+ accessToken))
    (Some (resourceId subscription)).

(** [subscribeChannel] up to its [await fetch]: building the request body
    reads [subscription.resourceId], which throws a [TypeError] ([None]) when
    the entry is [undefined]. *)
Definition subscribeChannel (accessToken : string) (subscription : Entry)
  : option Effect :=
  subscribeRequest accessToken <$> subscription.

(** One element of the array handed to [Promise.all]. *)
Inductive ItemTask :=
| ItemPending (subscription : SubscriptionSnippet)
| ItemSettled
| ItemRejected.

Definition item_task (subscription : Entry) : ItemTask :=
  match subscription with
  | Some s => ItemPending s
  | None => ItemRejected
  end.

Definition is_settled (t : ItemTask) : bool :=
  match t with ItemSettled => true | _ => false end.

Definition is_rejected (t : ItemTask) : bool :=
  match t with ItemRejected => true | _ => false end.

(** The line logged once the outcome of an item is known. *)
Definition notice (success : bool) (subscription : SubscriptionSnippet)
  : Effect :=
  if success then ConsoleLog ("Subscribed to " +:+ title subscription)
  else ConsoleLog ("Failed to subscribe to " +:+ title subscription).

Definition completion : list Effect := [ConsoleLog "Done!"; ProcessExit 0].

Definition loggedInDestination : Effect :=
  ConsoleLog "Successfully logged in to destination account.".

(** The two lines [loginDestination] logs first. *)
Definition replicatorHeader (n : nat) : list Effect :=
  [loggedInDestination;
   ConsoleLog ("Subscribing to " +:+ pretty n +:+ " channels ...")].

(** [loginDestination] up to [await Promise.all(...)]: both header lines,
    then [map] calls [subscribeChannel] on every entry in order, which
    issues all requests before any answer is looked at.  The second
    component is what the continuation does as soon as the caller has
    yielded: [Promise.all] rejects when one of the tasks has thrown, and
    resolves at once on the empty array. *)
Definition loginDestination (accessToken : string)
    (subscriptions : list Entry)
  : list Effect * list Effect * option (list ItemTask) :=
  let tasks := item_task <$> subscriptions in
  let started :=
    replicatorHeader (length subscriptions)
    ++ omap (subscribeChannel accessToken) subscriptions in
  if existsb is_rejected tasks then (started, [UnhandledRejection], Some tasks)
  else if forallb is_settled tasks then (started, completion, None)
  else (started, [], Some tasks).

(** The answer to the request of item [i] has arrived. *)
Definition settle (tasks : list ItemTask) (i : nat) (success : bool)
  : list Effect * option (list ItemTask) :=
  match tasks !! i with
  | Some (ItemPending subscription) =>
    let tasks' := <[i := ItemSettled]> tasks in
    if forallb is_settled tasks' then
      (notice success subscription :: completion, None)
    else ([notice success subscription], Some tasks')
  | _ => ([], Some tasks)
  end.

(** Answers arriving in the order of [schedule]. *)
Fixpoint settle_all (tasks : list ItemTask) (schedule : list (nat * bool))
  : list Effect * option (list ItemTask) :=
  match schedule with
  | [] => ([], Some tasks)
  | (i, success) :: rest =>
    match settle tasks i success with
    | (effects, Some tasks') =>
      let '(more, result) := settle_all tasks' rest in
      (effects ++ more, result)
    | (effects, None) => (effects, None)
    end
  end.

(** A whole run of the Replicator. *)
Definition replicate (accessToken : string) (subscriptions : list Entry)
    (schedule : list (nat * bool)) : list Effect * option (list ItemTask) :=
  match loginDestination accessToken subscriptions with
  | (started, deferred, Some tasks) =>
    let '(more, result) := settle_all tasks schedule in
    (started ++ deferred ++ more, result)
  | (started, deferred, None) => (started ++ deferred, None)
  end.

(** Vocabulary for statements about a run of the Replicator. *)

Global Instance SubscriptionSnippet_inhabited : Inhabited SubscriptionSnippet :=
  populate (mkSnippet "" (mkResource "" "")).

(** The notice for one answer of the schedule. *)
Definition notice_of (subs : list SubscriptionSnippet) (answer : nat * bool)
  : Effect :=
  notice answer.2 (subs !!! answer.1).

(** The task array while exactly the items in [todo] are unanswered. *)
Definition tasks_awaiting (subs : list SubscriptionSnippet) (todo : list nat)
  : list ItemTask :=
  imap (λ i s, if decide (i ∈ todo) then ItemPending s else ItemSettled) subs.

(** How often [loginDestination] was entered, read off the output. *)
Definition invocations (out : list Effect) : nat :=
  length (filter (λ e, e = loggedInDestination) out).

(** ** The process: module-level variables and parked continuations *)

Inductive Task :=
| PromptingSource
| Exchanging
| Enumerating (accessToken : string) (subscriptions : list Entry)
| PromptingDestination
| Replicating (tasks : list ItemTask).

Record Process := mkProcess {
  applicationState : ApplicationState;
  oauthState : string;
  config : Config;
  subscriptions : list Entry;
  pending : gmap nat Task;
  fresh : nat;
  output : list Effect;
  exited : option Z
}.

Inductive Event :=
| GetCallback (code responseState : QueryValue)
| GetRoot
| TokenResponse (t : nat) (response : Response TokenBody)
| PageResponse (t : nat) (response : Response SubscriptionsResponse)
| PromptAnswer (t : nat) (login : bool) (uuid : string)
| SubscribeResponse (t : nat) (i : nat) (response : Response unit).

Definition set_applicationState (a : ApplicationState) (p : Process) :=
  mkProcess a (oauthState p) (config p) (subscriptions p) (pending p)
    (fresh p) (output p) (exited p).

Definition set_oauthState (s : string) (p : Process) :=
  mkProcess (applicationState p) s (config p) (subscriptions p) (pending p)
    (fresh p) (output p) (exited p).

Definition set_subscriptions (l : list Entry) (p : Process) :=
  mkProcess (applicationState p) (oauthState p) (config p) l (pending p)
    (fresh p) (output p) (exited p).

Definition set_pending (m : gmap nat Task) (p : Process) :=
  mkProcess (applicationState p) (oauthState p) (config p) (subscriptions p)
    m (fresh p) (output p) (exited p).

(** Park a new continuation. *)
Definition park (k : Task) (p : Process) :=
  mkProcess (applicationState p) (oauthState p) (config p) (subscriptions p)
    (<[fresh p := k]> (pending p)) (S (fresh p)) (output p) (exited p).

Definition unpark (t : nat) (p : Process) :=
  set_pending (delete t (pending p)) p.

(** One effect; nothing happens any more once [process.exit] has run. *)
Definition emit (e : Effect) (p : Process) : Process :=
  match exited p with
  | Some _ => p
  | None =>
    mkProcess (applicationState p) (oauthState p) (config p)
      (subscriptions p) (pending p) (fresh p) (output p ++ [e])
      (match e with ProcessExit code => Some code | _ => None end)
  end.

Definition perform (effects : list Effect) (p : Process) : Process :=
  foldl (λ p e, emit e p) p effects.

(** ** Session Orchestrator *)

Definition authorizationLink (c : Config) (state : string) : string :=
  authorizationUrl c +:+ "?client_id=" +:+ clientId c +:+ "&redirect_uri="
  +:+ redirectUrl c +:+ "&response_type=code&scope=" +:+ scope c
  +:+ "&state=" +:+ state.

(** [uuid] is the value returned by the call [uuid()]. *)
Definition startLogin (uuid : string) (p : Process) : Process :=
  let p := set_oauthState uuid p in
  emit (OpenBrowser (authorizationLink (config p) (oauthState p))) p.

Definition promptSourceLogin_message : string :=
  "Press enter to login to your source YouTube account from where subscriptions will be taken from".

Definition promptDestinationLogin_message (p : Process) : string :=
  "Press enter to login to your destination YouTube account which will automatically subscribe to "
  +:+ pretty (length (subscriptions p)) +:+ " channels.".

(** The process once [start] has reached [await promptSourceLogin()]: the
    server listens and the module-level variables hold their initial
    values, [uuid] being the result of the top-level call [uuid()]. *)
Definition boot (c : Config) (uuid : string) : Process :=
  mkProcess login_source uuid c [] {[ 0 := PromptingSource ]} 1
    [InquirerConfirm promptSourceLogin_message] None.

(** [promptSourceLogin] and the rest of [start] after the answer. *)
Definition promptSourceLogin_resume (login : bool) (uuid : string)
    (p : Process) : Process :=
  if negb login then emit (ProcessExit 0) p
  else startLogin uuid p.

(** [promptDestinationLogin] after the answer. *)
Definition promptDestinationLogin_resume (login : bool) (uuid : string)
    (p : Process) : Process :=
  if negb login then emit (ProcessExit 0) p
  else startLogin uuid (set_applicationState login_destination p).

(** [loginSource] up to [await getAllSubscriptions(accessToken)]. *)
Definition loginSource (accessToken : string) (p : Process) : Process :=
  park (Enumerating accessToken [])
    (perform [ConsoleLog "Successfully logged in to source account.";
              ConsoleLog "Collecting subscribed channels ...";
              fetchPage accessToken None] p).

Definition noSubscriptions : list Effect :=
  [ConsoleLog "No subscriptions found! Please try again with an account that is subscribed to other channels.";
   ProcessExit 1].

(** [loginSource] once [getAllSubscriptions] has resolved to [result]. *)
Definition loginSource_resume (result : list Entry) (p : Process) : Process :=
  let p := set_subscriptions result p in
  if bool_decide (length (subscriptions p) = 0) then perform noSubscriptions p
  else
    park PromptingDestination
      (perform
         [ConsoleLog ("Found " +:+ pretty (length (subscriptions p))
                      +:+ " subscriptions.");
          InquirerConfirm (promptDestinationLogin_message p)] p).

(** [loginDestination] started on the module-level [subscriptions]; the
    deferred effects are returned to the caller, which has not yielded yet. *)
Definition loginDestination_start (accessToken : string) (p : Process)
  : Process * list Effect :=
  match loginDestination accessToken (subscriptions p) with
  | (started, deferred, Some tasks) =>
    (park (Replicating tasks) (perform started p), deferred)
  | (started, deferred, None) => (perform started p, deferred)
  end.

Definition tokenRequest (c : Config) (code : string) : Effect :=
  FetchPost
    (tokenUrl c +:+ "?client_id=" +:+ clientId c +:+ "&client_secret="
     +:+ clientSecret c +:+ "&redirect_uri=" +:+ redirectUrl c
     +:+ "&grant_type=authorization_code&code=" +:+ code)
    None None.

(** [exchangeForAccessToken] after [fetch] has resolved to [response]: what
    it logs and the [string | undefined] it resolves to, or [None] when it
    rejects because [response.json()] does (on a response that is not [ok]
    the body is awaited for the log line before anything else). *)
Definition exchangeForAccessToken (response : Response TokenBody)
  : option (list Effect * option string) :=
  if negb (ok response) then
    match json response with
    | Some _ =>
      Some ([ConsoleLogDiagnostic "Failed to login using YouTube"
               (Some (status response))], None)
    | None => None
    end
  else
    match json response with
    | Some body =>
      if negb (truthy (access_token body)) then
        Some ([ConsoleLogDiagnostic
                 "Failed to login using YouTube: Response did not contain an access_token"
                 None], None)
      else Some ([], access_token body)
    | None => None
    end.

Definition failedLogin : string :=
  "Failed to login with YouTube. Please try again.".
Definition invalidState : string :=
  "Failed to login with YouTube. Invalid state.".
Definition noAccessToken : string :=
  "Failed to login with YouTube. No access token received.".
Definition checkTerminal : string :=
  "Please check the terminal for the next steps. You can close this window now.".

(** The [/callback] handler up to [await exchangeForAccessToken(code)]. *)
Definition callback (code responseState : QueryValue) (p : Process)
  : Process :=
  if negb (qtruthy code) || negb (typeof_string code) then
    emit (CtxBody failedLogin) p
  else if negb (qtruthy responseState)
          || strict_neq responseState (oauthState p) then
    emit (CtxBody invalidState) p
  else
    park Exchanging (emit (tokenRequest (config p) (query_string code)) p).

(** The rest of the [/callback] handler. *)
Definition callback_resume (response : Response TokenBody) (p : Process)
  : Process :=
  match exchangeForAccessToken response with
  | None => emit HandlerRejected p
  | Some (effects, accessToken) =>
    let p := perform effects p in
    match accessToken with
    | None => emit (CtxBody noAccessToken) p
    | Some accessToken =>
      let p :=
        if decide (applicationState p = login_source)
        then loginSource accessToken p else p in
      let '(p, deferred) :=
        if decide (applicationState p = login_destination)
        then loginDestination_start accessToken p else (p, []) in
      perform deferred (emit (CtxBody checkTerminal) p)
    end
  end.

(** The event loop: one event resumes one continuation, which runs up to
    its next [await]. *)
Definition step (e : Event) (p : Process) : Process :=
  match exited p with
  | Some _ => p
  | None =>
    match e with
    | GetCallback code responseState => callback code responseState p
    | GetRoot => emit (CtxBody "Please continue in your terminal") p
    | TokenResponse t response =>
      match pending p !! t with
      | Some Exchanging => callback_resume response (unpark t p)
      | _ => p
      end
    | PageResponse t response =>
      match pending p !! t with
      | Some (Enumerating accessToken acc) =>
        match iteration acc response with
        | (effects, LoopAgain nextPage acc') =>
          set_pending (<[t := Enumerating accessToken acc']> (pending p))
            (perform (effects ++ [fetchPage accessToken nextPage]) p)
        | (effects, LoopReturn result) =>
          loginSource_resume result (perform effects (unpark t p))
        | (effects, LoopThrow _) =>
          perform (effects ++ [UnhandledRejection]) (unpark t p)
        end
      | _ => p
      end
    | PromptAnswer t login uuid =>
      match pending p !! t with
      | Some PromptingSource => promptSourceLogin_resume login uuid (unpark t p)
      | Some PromptingDestination =>
        promptDestinationLogin_resume login uuid (unpark t p)
      | _ => p
      end
    | SubscribeResponse t i response =>
      match pending p !! t with
      | Some (Replicating tasks) =>
        match settle tasks i (ok response) with
        | (effects, Some tasks') =>
          perform effects
            (set_pending (<[t := Replicating tasks']> (pending p)) p)
        | (effects, None) => perform effects (unpark t p)
        end
      | _ => p
      end
    end
  end.

Definition run (events : list Event) (p : Process) : Process :=
  foldl (λ p e, step e p) p events.

(** Vocabulary for statements about the process. *)

Definition is_enumerating (k : Task) : bool :=
  match k with Enumerating _ _ => true | _ => false end.

(** No [getAllSubscriptions] is in flight. *)
Definition quiescent (p : Process) : Prop :=
  map_Forall (λ _ k, is_enumerating k = false) (pending p).

(** The source phase is over for good: the process awaits the destination
    login and no enumeration is left that could still write
    [subscriptions]. *)
Definition destination_settled (p : Process) : Prop :=
  applicationState p = login_destination ∧ quiescent p.

(** [p'] has the phase and the collected subscriptions of [p], and no
    enumeration in flight if [p] had none. *)
Definition keeps (p p' : Process) : Prop :=
  applicationState p' = applicationState p
  ∧ subscriptions p' = subscriptions p
  ∧ (quiescent p → quiescent p').

Definition exits (e : Effect) : bool :=
  match e with ProcessExit _ => true | _ => false end.

(** Effects that belong to an authorization round: a prompt, a browser
    open. *)
Definition opens_or_prompts (e : Effect) : bool :=
  match e with
  | OpenBrowser _ | InquirerConfirm _ => true
  | _ => false
  end.

(** [p'] is [p] after a request was answered with [body] and nothing else
    was done: no variable written, no continuation parked or resumed, no
    other effect. *)
Definition rejected (body : string) (p p' : Process) : Prop :=
  output p' = output p ++ [CtxBody body]
  ∧ applicationState p' = applicationState p
  ∧ oauthState p' = oauthState p
  ∧ subscriptions p' = subscriptions p
  ∧ pending p' = pending p
  ∧ exited p' = exited p.

(** A query value the [code] check lets through. *)
Definition valid_code (code : QueryValue) : bool :=
  qtruthy code && typeof_string code.


(** The step accepted the callback: the token request for [code] went out
    and the handler is parked at [await exchangeForAccessToken(code)]; no
    variable was written. *)
Definition accepted (code : string) (p p' : Process) : Prop :=
  output p' = output p ++ [tokenRequest (config p) code]
  ∧ pending p' = <[fresh p := Exchanging]> (pending p)
  ∧ applicationState p' = applicationState p
  ∧ oauthState p' = oauthState p
  ∧ subscriptions p' = subscriptions p
  ∧ exited p' = None.

(** The events whose handlers assign [subscriptions], and those whose
    handlers assign [applicationState] or [oauthState]. *)
Definition resumes_enumeration (e : Event) : bool :=
  match e with PageResponse _ _ => true | _ => false end.

Definition answers_prompt (e : Event) : bool :=
  match e with PromptAnswer _ _ _ => true | _ => false end.

(** The URL of the last browser open in an output, if any. *)
Definition last_opened (out : list Effect) : option string :=
  last (omap (λ e, match e with OpenBrowser url => Some url | _ => None end)
          out).

Definition opens (e : Effect) : bool :=
  match e with OpenBrowser _ => true | _ => false end.

(** The URLs opened in the browser, in order. *)
Definition opened (out : list Effect) : list string :=
  omap (λ e, match e with OpenBrowser url => Some url | _ => None end) out.

(** The source prompt is the continuation of [start] alone, and as long as
    the phase is [login_source] nothing has been opened before it is
    answered and at most one link after. *)
Definition source_login_only (p : Process) : Prop :=
  (∀ t, pending p !! t = Some PromptingSource → t = 0)
  ∧ (applicationState p = login_source →
     (pending p !! 0 = Some PromptingSource → opened (output p) = [])
     ∧ (length (opened (output p)) ≤ 1)%nat).

(** [p'] has the output of [p] followed by effects that all satisfy [P]. *)
Definition adds (P : Effect → Prop) (p p' : Process) : Prop :=
  ∃ new, output p' = output p ++ new ∧ Forall P new.

(** ** Credential store: [defaultConfig] and [loadOrCreateConfig] *)

(** The values a configuration object holds. *)
Inductive JsValue :=
| JsString (s : string)
| JsNumber (n : Z).

(** [{...a, ...b}]: the properties of both, those of [b] winning. *)
Definition spread (a b : gmap string JsValue) : gmap string JsValue := b ∪ a.

Definition configFilePath : string := "./config.json".

Definition defaultConfig : gmap string JsValue :=
  {[ "port" := JsNumber 8080;
     "redirectUrl" := JsString "http://localhost:8080/callback";
     "scope" := JsString "https://www.googleapis.com/auth/youtube.force-ssl";
     "authorizationUrl" :=
       JsString "https://accounts.google.com/o/oauth2/v2/auth";
     "tokenUrl" := JsString "https://oauth2.googleapis.com/token" ]}.

(** Outcome of [loadOrCreateConfig]: the configuration ([None] when
    [JSON.parse] threw), the files afterwards, and whether the credentials
    were prompted for. *)
Record Loaded := mkLoaded {
  loaded_config : option (gmap string JsValue);
  loaded_files : gmap string string;
  loaded_prompted : bool
}.

(** [JSON.parse] and [JSON.stringify] are parameters; [files] maps a path to
    the content of the file, and [credentials] is what [promptCredentials]
    resolves to when it is called. *)
Definition loadOrCreateConfig
    (JSON_parse : string → option (gmap string JsValue))
    (JSON_stringify : gmap string JsValue → string)
    (files : gmap string string) (credentials : gmap string JsValue)
  : Loaded :=
  match files !! configFilePath with
  | Some content => mkLoaded (JSON_parse content) files false
  | None =>
    let config := spread credentials defaultConfig in
    mkLoaded (Some config)
      (<[configFilePath := JSON_stringify config]> files) true
  end.

(** ** Sample data for the examples *)

Definition sampleConfig : Config :=
  mkConfig "client" "secret" 8080 "http://localhost:8080/callback"
    "https://www.googleapis.com/auth/youtube.force-ssl"
    "https://accounts.google.com/o/oauth2/v2/auth"
    "https://oauth2.googleapis.com/token".

Definition channel (name : string) : SubscriptionSnippet :=
  mkSnippet name (mkResource "youtube#channel" ("UC-" +:+ name)).

Definition page (nextPage : option string) (names : list string)
  : Response SubscriptionsResponse :=
  mkResponse true 200
    (Some
       (mkPage nextPage
          (Some ((λ n, mkSubscription n (channel n)) <$> names)))).

(** A failure with a JSON error body, and one whose body is not JSON. *)
Definition failedPage : Response SubscriptionsResponse :=
  mkResponse false 403 (Some (mkPage None None)).


(** A provider that answers every request with the same token. *)
Definition repeating : nat → Response SubscriptionsResponse :=
  λ _, page (Some "CAUQAA") ["a"].

(** Two pages with the same token, then a last page. *)
Definition threePages : nat → Response SubscriptionsResponse :=
  λ k, if decide (k = 2) then page None ["c"] else repeating k.

Definition granted (token : string) : Response TokenBody :=
  mkResponse true 200 (Some (mkTokenBody (Some token))).

(** One source login, confirmed: the destination login is awaited. *)
Definition singleSource : list Event :=
  [PromptAnswer 0 true "4e8d";
   GetCallback (QString "4/0Ab") (QString "4e8d");
   TokenResponse 1 (granted "ya29.a");
   PageResponse 2 (page None ["a"; "b"]);
   PromptAnswer 3 true "91c2"].

(** Two source logins with the same [state] overlap: the first one
    enumerates, is confirmed and moves the process to [login_destination]
    while the second enumeration (continuation 4) is still in flight. *)
Definition overlappingSources : list Event :=
  [PromptAnswer 0 true "4e8d";
   GetCallback (QString "4/0Ab") (QString "4e8d");
   TokenResponse 1 (granted "ya29.a");
   GetCallback (QString "4/0Cd") (QString "4e8d");
   TokenResponse 3 (granted "ya29.b");
   PageResponse 2 (page None ["a"]);
   PromptAnswer 5 true "91c2"].

(** The second enumeration resolves, then the destination callback comes. *)
Definition lateEnumeration : list Event :=
  [PageResponse 4 (page None ["b"]);
   GetCallback (QString "4/0Ef") (QString "91c2")].

(** * Properties *)

(** ** Enumerator *)

Section Enumerator.
Context (accessToken : string).

Lemma iteration_continues acc r :
  continues r = true →
  iteration acc r = ([], LoopAgain (page_token r) (acc ++ page_entries r)).
Proof.
  unfold continues, iteration, page_entries, page_token.
  intros [Hok Htok]%andb_true_iff.
  destruct (json r) as [body|]; [|done]. simpl in Htok.
  rewrite Hok, Htok. simpl. by destruct (items body).
Qed.

Lemma iteration_last_page acc r :
  ok r = true → is_Some (json r) → truthy (page_token r) = false →
  iteration acc r = ([], LoopReturn (acc ++ page_entries r)).
Proof.
  unfold iteration, page_entries, page_token. intros -> [body ->] Htok.
  simpl in *. rewrite Htok. by destruct (items body).
Qed.

Lemma iteration_failure acc r :
  ok r = false → is_Some (json r) →
  iteration acc r =
    ([ConsoleLogDiagnostic "Failed to load subscriptions" (Some (status r))],
     LoopReturn acc).
Proof. unfold iteration. by intros -> [body ->]. Qed.

(** A body that is not JSON: the iteration throws, whatever the status. *)
Lemma iteration_throws acc r :
  json r = None → iteration acc r = ([], LoopThrow acc).
Proof. unfold iteration. intros ->. by destruct (ok r). Qed.

Lemma has_items_parsed r : has_items r → is_Some (json r).
Proof.
  unfold has_items, page_items. intros [l Hl]. by destruct (json r).
Qed.

Lemma page_entries_items r : has_items r → page_entries r = page_snippets r.
Proof.
  unfold has_items, page_entries, page_snippets, page_items. intros [l Hl].
  destruct (json r) as [body|]; [|done]. simpl in *. by rewrite Hl.
Qed.

Lemma page_entries_all_items (pages : list (Response SubscriptionsResponse)) :
  Forall has_items pages → page_entries <$> pages = page_snippets <$> pages.
Proof.
  induction 1 as [|r pages Hr _ IH]; [done|].
  rewrite !fmap_cons, IH. by rewrite page_entries_items.
Qed.

Lemma default_last_cons {A} (l : list A) : ∀ x y,
  default x (last (y :: l)) = default y (last l).
Proof.
  induction l as [|z l IH]; intros x y; [done|].
  by rewrite last_cons_cons, (IH x z), (IH y z).
Qed.

(** The loop runs through a block of pages that all succeed and carry a
    token: one request per page, each with the token of the page before. *)
Lemma enumerate_app pre : ∀ nextPage acc rest,
  Forall (λ r, continues r = true) pre →
  enumerate accessToken nextPage acc (pre ++ rest) =
    let '(more, result) :=
      enumerate accessToken
        (default nextPage (last (page_token <$> pre)))
        (acc ++ mjoin (page_entries <$> pre)) rest in
    ((fetchPage accessToken <$>
        take (length pre) (nextPage :: (page_token <$> pre))) ++ more,
     result).
Proof.
  induction pre as [|r pre IH]; intros nextPage acc rest Hpre.
  - simpl. rewrite app_nil_r. by destruct (enumerate _ _ _ _).
  - apply Forall_cons in Hpre as [Hr Hpre].
    assert (default nextPage (last (page_token <$> r :: pre))
            = default (page_token r) (last (page_token <$> pre))) as ->.
    { rewrite fmap_cons. apply default_last_cons. }
    rewrite <- app_comm_cons. cbn [enumerate].
    rewrite (iteration_continues _ _ Hr), (IH _ _ _ Hpre).
    rewrite !fmap_cons, <- app_assoc. simpl.
    by destruct (enumerate _ _ _ _).
Qed.

Lemma take_snoc_last {A} (x : A) (l : list A) :
  take (length l) (x :: l) ++ [default x (last l)] = x :: l.
Proof.
  revert x. induction l as [|y l IH]; intros x; [done|].
  simpl. f_equal.
  rewrite default_last_cons. apply IH.
Qed.

Lemma enumerate_suspended pre nextPage acc :
  Forall (λ r, continues r = true) pre →
  (enumerate accessToken nextPage acc pre).2 =
    Suspended (acc ++ mjoin (page_entries <$> pre)).
Proof.
  intros Hpre. rewrite <- (app_nil_r pre) at 1.
  by rewrite (enumerate_app _ _ _ _ Hpre).
Qed.

(** A response that does not let the loop go on ends the enumeration,
    whatever would come after it. *)
Lemma enumerate_stop r rest nextPage acc :
  continues r = false →
  enumerate accessToken nextPage acc (r :: rest) =
    (fetchPage accessToken nextPage :: (iteration acc r).1,
     finished (iteration acc r).2).
Proof.
  intros Hr. cbn [enumerate].
  destruct (iteration acc r) as [effects [result|next acc'|acc']] eqn:Hit;
    [done| |done].
  exfalso. revert Hr Hit. unfold continues, page_token, iteration.
  destruct (ok r), (json r) as [body|]; simpl; try done.
  by intros ->.
Qed.

Lemma enumerate_stops pre r rest nextPage acc :
  Forall (λ r, continues r = true) pre → continues r = false →
  enumerate accessToken nextPage acc (pre ++ r :: rest) =
    ((fetchPage accessToken <$> (nextPage :: (page_token <$> pre)))
       ++ (iteration (acc ++ mjoin (page_entries <$> pre)) r).1,
     finished (iteration (acc ++ mjoin (page_entries <$> pre)) r).2).
Proof.
  intros Hpre Hr. rewrite (enumerate_app _ _ _ _ Hpre), (enumerate_stop _ _ _ _ Hr).
  f_equal.
  rewrite <- (take_snoc_last nextPage (page_token <$> pre)) at 2.
  by rewrite fmap_app, length_fmap, <- app_assoc.
Qed.

(** Whether the stopping response ends the call by [return] or by an
    exception depends on its body alone. *)
Lemma finished_parsed acc r :
  continues r = false → is_Some (json r) →
  ∃ subs, finished (iteration acc r).2 = Resolved subs.
Proof.
  intros Hr Hjson. unfold continues in Hr. apply andb_false_iff in Hr.
  destruct (ok r) eqn:Hok.
  - destruct Hr as [? | Hr]; [done|].
    rewrite (iteration_last_page _ _ Hok Hjson Hr). by eexists.
  - rewrite (iteration_failure _ _ Hok Hjson). by eexists.
Qed.

Lemma finished_not_suspended it subs : finished it ≠ Suspended subs.
Proof. by destruct it. Qed.

Lemma finished_resolved_parsed acc r subs :
  finished (iteration acc r).2 = Resolved subs → is_Some (json r).
Proof.
  destruct (json r) as [body|] eqn:Hjson; [by eexists|].
  by rewrite (iteration_throws _ _ Hjson).
Qed.
End Enumerator.

Lemma first_responses_S (s : nat → Response SubscriptionsResponse) n :
  first_responses s (S n) = first_responses s n ++ [s n].
Proof. unfold first_responses. by rewrite seq_S, fmap_app. Qed.

Lemma first_responses_split (s : nat → Response SubscriptionsResponse) j n :
  j < n →
  first_responses s n =
    first_responses s j ++ s j :: (s <$> seq (S j) (n - S j)).
Proof.
  intros Hj. unfold first_responses.
  replace n with (j + S (n - S j)) at 1 by lia.
  by rewrite seq_app, fmap_app.
Qed.

Lemma first_responses_continue (s : nat → Response SubscriptionsResponse) k :
  Forall (λ r, continues r = true) (first_responses s k)
  ↔ ∀ j, j < k → continues (s j) = true.
Proof.
  unfold first_responses. rewrite Forall_fmap, Forall_seq. simpl.
  split; intros H j ?; apply H; lia.
Qed.

(** Either the first [n] responses all let the loop go on, or there is a
    first one that stops it. *)
Lemma first_responses_scan (s : nat → Response SubscriptionsResponse) n :
  Forall (λ r, continues r = true) (first_responses s n)
  ∨ ∃ j, j < n ∧ continues (s j) = false
         ∧ Forall (λ r, continues r = true) (first_responses s j).
Proof.
  induction n as [|n [IH|(j & Hj & Hstop & Hpre)]].
  - left. constructor.
  - destruct (continues (s n)) eqn:Hn.
    + left. rewrite first_responses_S. apply Forall_app. split; [done|]. by constructor.
    + right. exists n. split; [lia|done].
  - right. exists j. split; [lia|done].
Qed.

(** C3: when [k] successful pages arrive, every one but the last carrying a
    continuation token, [getAllSubscriptions] resolves to the snippets of
    all pages, page after page and in each page's own order; its length is
    the sum of the page sizes.  (No bound on the page sizes is needed.) *)
Theorem getAllSubscriptions_collects_pages accessToken pre final sizes :
  Forall (λ r, continues r = true) pre →
  ok final = true → truthy (page_token final) = false →
  Forall has_items (pre ++ [final]) →
  page_size <$> (pre ++ [final]) = sizes →
  ∃ subs,
    getAllSubscriptions accessToken (pre ++ [final]) =
      (fetchPage accessToken <$> (None :: (page_token <$> pre)), Resolved subs)
    ∧ subs = mjoin (page_snippets <$> (pre ++ [final]))
    ∧ length subs = sum_list sizes.
Proof.
  intros Hpre Hok Hlast Hitems <-.
  exists (mjoin (page_snippets <$> (pre ++ [final]))). split; [|split; [done|]].
  - unfold getAllSubscriptions. rewrite (enumerate_app _ _ _ _ _ Hpre).
    assert (is_Some (json final)) as Hjson.
    { apply has_items_parsed.
      apply Forall_app in Hitems as [_ Hfinal]. by inversion Hfinal. }
    cbn [enumerate]. rewrite (iteration_last_page _ _ Hok Hjson Hlast).
    rewrite <- (page_entries_all_items _ Hitems).
    rewrite <- (take_snoc_last None (page_token <$> pre)) at 2.
    rewrite !fmap_app, join_app, length_fmap, app_nil_l. simpl.
    by rewrite app_nil_r.
  - rewrite length_join, <- list_fmap_compose. f_equal.
    apply list_fmap_ext. intros _ r _. unfold page_snippets, page_size. simpl.
    by rewrite length_fmap.
Qed.

(** The loop tests the token for truthiness: a page whose [nextPageToken]
    is the empty string ends the enumeration like a page without one. *)
Lemma empty_token_ends_enumeration accessToken :
  getAllSubscriptions accessToken [page (Some "") ["a"]; page None ["b"]] =
    ([fetchPage accessToken None], Resolved [Some (channel "a")]).
Proof. reflexivity. Qed.

Lemma getAllSubscriptions_collects_pages_witness :
  ∃ subs,
    getAllSubscriptions "ya29"
      ([page (Some "CAUQAA") ["a"; "b"]; page (Some "CGQQAA") []]
       ++ [page None ["c"]]) =
      (fetchPage "ya29" <$> [None; Some "CAUQAA"; Some "CGQQAA"], Resolved subs)
    ∧ subs = [Some (channel "a"); Some (channel "b"); Some (channel "c")]
    ∧ length subs = 3.
Proof.
  apply (getAllSubscriptions_collects_pages "ya29"
           [page (Some "CAUQAA") ["a"; "b"]; page (Some "CGQQAA") []]
           (page None ["c"]) [2; 0; 1]).
  - repeat constructor.
  - reflexivity.
  - reflexivity.
  - repeat constructor; by eexists.
  - reflexivity.
Defined.




(** C5 as stated fails: against a provider that repeats the same token on
    every page the loop never returns. *)
Lemma repeated_token_never_returns :
  ¬ ∃ n subs,
      (getAllSubscriptions "ya29" (first_responses repeating n)).2 = Resolved subs.
Proof.
  intros (n & subs & Hres).
  unfold getAllSubscriptions in Hres.
  rewrite enumerate_suspended in Hres; [done|].
  unfold first_responses. apply Forall_fmap, Forall_forall. by intros k _.
Qed.

(** C5, amended: the loop compares no tokens.  The call ends exactly when
    some response fails or carries no (non-empty) continuation token, and
    it ends by returning exactly when the first such response has a JSON
    body (otherwise it rejects). *)
Theorem getAllSubscriptions_returns_iff accessToken
    (s : nat → Response SubscriptionsResponse) :
  ((∃ n subs,
      (getAllSubscriptions accessToken (first_responses s n)).2 = Resolved subs)
   ↔ (∃ k, continues (s k) = false ∧ is_Some (json (s k))
           ∧ ∀ j, j < k → continues (s j) = true))
  ∧ ((∃ n, ∀ subs,
        (getAllSubscriptions accessToken (first_responses s n)).2
        ≠ Suspended subs)
     ↔ (∃ k, continues (s k) = false)).
Proof.
  unfold getAllSubscriptions. split; split.
  - intros (n & subs & Hres).
    destruct (first_responses_scan s n) as [Hall|(j & Hj & Hstop & Hpre)].
    { by rewrite enumerate_suspended in Hres. }
    exists j. split; [done|]. split.
    + rewrite (first_responses_split s j n Hj) in Hres.
      rewrite (enumerate_stops _ _ _ _ _ _ Hpre Hstop) in Hres.
      by apply finished_resolved_parsed in Hres.
    + by apply first_responses_continue.
  - intros (k & Hstop & Hjson & Hpre).
    apply first_responses_continue in Hpre.
    exists (S k). rewrite first_responses_S.
    rewrite (enumerate_stops _ _ _ _ _ _ Hpre Hstop).
    apply (finished_parsed _ _ Hstop Hjson).
  - intros (n & Hres).
    destruct (first_responses_scan s n) as [Hall|(j & _ & Hstop & _)];
      [|by exists j].
    exfalso. eapply Hres. by apply enumerate_suspended.
  - intros (k & Hk).
    destruct (first_responses_scan s (S k)) as [Hall|(j & _ & Hstop & Hpre)].
    + rewrite first_responses_S in Hall. apply Forall_app in Hall as [_ Hall].
      rewrite Forall_singleton in Hall. congruence.
    + exists (S j). intros subs. rewrite first_responses_S.
      rewrite (enumerate_stops _ _ _ _ _ _ Hpre Hstop).
      apply finished_not_suspended.
Qed.

Lemma getAllSubscriptions_returns_iff_witness :
  ∃ n subs,
    (getAllSubscriptions "ya29" (first_responses threePages n)).2
    = Resolved subs.
Proof.
  apply (getAllSubscriptions_returns_iff "ya29" threePages).
  exists 2. split; [reflexivity|]. split; [by eexists|].
  intros j Hj. destruct j as [|[|j]]; [reflexivity|reflexivity|lia].
Defined.

(** ** Replicator *)

Section Replicator.
Context (accessToken : string) (subs : list SubscriptionSnippet).

Lemma tasks_awaiting_lookup todo i :
  tasks_awaiting subs todo !! i =
    (λ s, if decide (i ∈ todo) then ItemPending s else ItemSettled)
      <$> subs !! i.
Proof. unfold tasks_awaiting. by rewrite list_lookup_imap. Qed.

Lemma tasks_awaiting_length todo :
  length (tasks_awaiting subs todo) = length subs.
Proof. unfold tasks_awaiting. by rewrite length_imap. Qed.

(** Right after the fan-out every item is awaited. *)
Lemma tasks_awaiting_all todo :
  (∀ i, i < length subs → i ∈ todo) →
  item_task <$> (Some <$> subs) = tasks_awaiting subs todo.
Proof.
  intros Hall. apply list_eq. intros i.
  rewrite tasks_awaiting_lookup, !list_lookup_fmap.
  destruct (subs !! i) as [s|] eqn:Hi; [|done]. simpl.
  apply lookup_lt_Some, Hall in Hi. by rewrite decide_True.
Qed.

Lemma tasks_awaiting_settle i todo :
  i ∉ todo →
  <[i := ItemSettled]> (tasks_awaiting subs (i :: todo)) =
    tasks_awaiting subs todo.
Proof.
  intros Hi. apply list_eq. intros j.
  destruct (decide (i = j)) as [<-|Hij].
  - rewrite tasks_awaiting_lookup.
    destruct (subs !! i) as [s|] eqn:Hs; simpl.
    + rewrite list_lookup_insert_eq, decide_False; [done..|].
      rewrite tasks_awaiting_length. by eapply lookup_lt_Some.
    + rewrite list_insert_ge, tasks_awaiting_lookup, Hs; [done|].
      rewrite tasks_awaiting_length. by apply lookup_ge_None.
  - rewrite list_lookup_insert_ne, !tasks_awaiting_lookup by done.
    destruct (subs !! j) as [s|]; [simpl|done].
    destruct (decide (j ∈ todo)) as [Hj|Hj].
    + rewrite decide_True; [done|]. by right.
    + rewrite decide_False; [done|]. by intros [?|?]%elem_of_cons.
Qed.

Lemma tasks_awaiting_none_settled : forallb is_settled (tasks_awaiting subs []) = true.
Proof.
  apply Is_true_true, forallb_True, Forall_lookup. intros i t.
  rewrite tasks_awaiting_lookup. destruct (subs !! i); [simpl|done].
  by intros [= <-].
Qed.

Lemma tasks_awaiting_some_pending j todo :
  j < length subs →
  forallb is_settled (tasks_awaiting subs (j :: todo)) = false.
Proof.
  intros Hj. apply not_true_is_false. intros Hall.
  apply Is_true_true, forallb_True in Hall.
  destruct (lookup_lt_is_Some_2 subs j Hj) as [s Hs].
  eapply (Forall_lookup_1 _ _ j (ItemPending s)) in Hall; [done|].
  rewrite tasks_awaiting_lookup, Hs. simpl. rewrite decide_True; [done|].
  by left.
Qed.

Lemma settle_awaiting i success todo s :
  i ∉ todo → subs !! i = Some s → (∀ j, j ∈ todo → j < length subs) →
  settle (tasks_awaiting subs (i :: todo)) i success =
    match todo with
    | [] => (notice success s :: completion, None)
    | _ => ([notice success s], Some (tasks_awaiting subs todo))
    end.
Proof.
  intros Hi Hs Hbound. unfold settle.
  rewrite tasks_awaiting_lookup, Hs. simpl.
  rewrite decide_True by (by left).
  rewrite (tasks_awaiting_settle _ _ Hi).
  destruct todo as [|j todo].
  - by rewrite tasks_awaiting_none_settled.
  - rewrite tasks_awaiting_some_pending; [done|]. apply Hbound. by left.
Qed.

(** Answers arriving in the order [s1], with those of [s2] still to
    come: one notice each, and the completion once nothing is left. *)
Lemma settle_all_awaiting s1 : ∀ s2,
  NoDup (s1 ++ s2).*1 →
  (∀ j, j ∈ (s1 ++ s2).*1 → j < length subs) →
  settle_all (tasks_awaiting subs (s1 ++ s2).*1) s1 =
    if decide (s1 ≠ [] ∧ s2 = [])
    then ((notice_of subs <$> s1) ++ completion, None)
    else (notice_of subs <$> s1, Some (tasks_awaiting subs s2.*1)).
Proof.
  induction s1 as [|[i success] s1 IH]; intros s2 Hnodup Hbound.
  - rewrite decide_False; [done|]. by intros [? _].
  - rewrite <- app_comm_cons, fmap_cons in Hnodup, Hbound |- *.
    apply NoDup_cons in Hnodup as [Hi Hnodup]. cbn [fst] in *.
    destruct (lookup_lt_is_Some_2 subs i) as [s Hs];
      [apply Hbound; by left|].
    assert (∀ j, j ∈ (s1 ++ s2).*1 → j < length subs) as Hbound'
      by (intros j Hj; apply Hbound; by right).
    cbn [settle_all]. rewrite (settle_awaiting _ _ _ s Hi Hs Hbound').
    assert (notice_of subs (i, success) = notice success s) as Hnotice.
    { unfold notice_of. simpl. by rewrite (list_lookup_total_correct _ _ _ Hs). }
    specialize (IH s2 Hnodup Hbound').
    destruct ((s1 ++ s2).*1) as [|j todo] eqn:Htodo.
    + apply fmap_nil_inv, app_eq_nil in Htodo as [-> ->].
      rewrite decide_True by done. simpl. by rewrite Hnotice.
    + rewrite IH.
      rewrite fmap_cons, Hnotice.
      destruct (decide (s1 ≠ [] ∧ s2 = [])) as [[_ ->]|Hno].
      * by rewrite decide_True.
      * rewrite decide_False; [done|]. intros [_ ->]. apply Hno.
        split; [|done]. intros ->. by rewrite app_nil_r in Htodo.
Qed.

End Replicator.

Lemma loginDestination_defined accessToken (subs : list SubscriptionSnippet) :
  loginDestination accessToken (Some <$> subs) =
    match subs with
    | [] => (replicatorHeader 0, completion, None)
    | _ =>
      (replicatorHeader (length subs)
         ++ (subscribeRequest accessToken <$> subs), [],
       Some (tasks_awaiting subs (seq 0 (length subs))))
    end.
Proof.
  unfold loginDestination.
  assert (omap (subscribeChannel accessToken) (Some <$> subs)
          = subscribeRequest accessToken <$> subs) as ->.
  { induction subs as [|s l IH]; csimpl; [done|]. by rewrite IH. }
  rewrite (tasks_awaiting_all subs (seq 0 (length subs))), length_fmap
    by (intros i Hi; apply elem_of_seq; lia).
  assert (existsb is_rejected (tasks_awaiting subs (seq 0 (length subs)))
          = false) as ->.
  { apply not_true_is_false. intros Hex.
    apply existsb_exists in Hex as (t & Ht%list_elem_of_In & Hr).
    apply list_elem_of_lookup in Ht as [i Ht].
    rewrite tasks_awaiting_lookup in Ht.
    destruct (subs !! i); [simpl in Ht|done].
    by destruct (decide _); injection Ht as <-. }
  destruct subs as [|s l]; [by rewrite app_nil_r|].
  change (seq 0 (length (s :: l))) with (0 :: seq 1 (length l)).
  rewrite (tasks_awaiting_some_pending (s :: l) 0); [done|simpl; lia].
Qed.

(** A run of the Replicator on defined entries, for a schedule that answers
    every request once: the full run, and every run cut short. *)
Lemma replicate_schedule accessToken (subs : list SubscriptionSnippet)
    (schedule : list (nat * bool)) :
  schedule.*1 ≡ₚ seq 0 (length subs) →
  replicate accessToken (Some <$> subs) schedule =
    (replicatorHeader (length subs)
       ++ (subscribeRequest accessToken <$> subs)
       ++ (notice_of subs <$> schedule) ++ completion, None)
  ∧ ∀ n, n < length schedule →
      replicate accessToken (Some <$> subs) (take n schedule) =
        (replicatorHeader (length subs)
           ++ (subscribeRequest accessToken <$> subs)
           ++ (notice_of subs <$> take n schedule),
         Some (tasks_awaiting subs (drop n schedule).*1)).
Proof.
  intros Hperm.
  assert (NoDup schedule.*1) as Hnodup
    by (rewrite Hperm; apply NoDup_seq).
  assert (∀ j, j ∈ schedule.*1 → j < length subs) as Hbound
    by (intros j Hj; rewrite Hperm in Hj; apply elem_of_seq in Hj; lia).
  assert (tasks_awaiting subs (seq 0 (length subs))
          = tasks_awaiting subs schedule.*1) as Htasks.
  { rewrite <- !(tasks_awaiting_all subs); [done|..];
      intros i Hi; [rewrite Hperm|]; apply elem_of_seq; lia. }
  unfold replicate. rewrite loginDestination_defined.
  destruct subs as [|s l].
  { apply Permutation_nil_r, fmap_nil_inv in Hperm as ->.
    split; [done|]. simpl. lia. }
  cbv beta iota. remember (s :: l) as subs eqn:Hsubs.
  rewrite Htasks. split.
  - pose proof (settle_all_awaiting subs schedule []) as Hall.
    rewrite app_nil_r in Hall. rewrite (Hall Hnodup Hbound).
    rewrite decide_True; [by rewrite app_nil_l, <- app_assoc|].
    split; [|done]. intros ->. apply Permutation_length in Hperm.
    rewrite length_seq, Hsubs in Hperm. simpl in Hperm. lia.
  - intros n Hn.
    pose proof (settle_all_awaiting subs (take n schedule) (drop n schedule))
      as Hall.
    rewrite take_drop in Hall. rewrite (Hall Hnodup Hbound).
    rewrite decide_False; [by rewrite app_nil_l, <- app_assoc|].
    intros [_ Hdrop]. apply (f_equal length) in Hdrop.
    rewrite length_drop in Hdrop. simpl in Hdrop. lia.
Qed.

Lemma settle_rejected tasks i success :
  ItemRejected ∈ tasks →
  ∃ effects tasks',
    settle tasks i success = (effects, Some tasks')
    ∧ ItemRejected ∈ tasks'
    ∧ Forall (λ e, exits e = false ∧ e ≠ ConsoleLog "Done!") effects.
Proof.
  intros Hrejected. unfold settle.
  destruct (tasks !! i) as [[s| |]|] eqn:Hi; try by eexists _, _.
  assert (ItemRejected ∈ <[i := ItemSettled]> tasks) as Hstill.
  { apply list_elem_of_lookup in Hrejected as [j Hj].
    apply list_elem_of_lookup. exists j.
    rewrite list_lookup_insert_ne; [done|]. intros ->. congruence. }
  assert (forallb is_settled (<[i := ItemSettled]> tasks) = false) as ->.
  { apply not_true_is_false. intros Hall.
    apply Is_true_true, forallb_True in Hall.
    by apply (proj1 (Forall_forall _ _) Hall) in Hstill. }
  eexists _, _. split; [done|]. split; [done|].
  constructor; [|done]. by destruct success.
Qed.

Lemma settle_all_rejected schedule : ∀ tasks,
  ItemRejected ∈ tasks →
  ∃ effects tasks',
    settle_all tasks schedule = (effects, Some tasks')
    ∧ Forall (λ e, exits e = false ∧ e ≠ ConsoleLog "Done!") effects.
Proof.
  induction schedule as [|[i success] schedule IH]; intros tasks Hrejected.
  - by eexists _, _.
  - cbn [settle_all].
    destruct (settle_rejected tasks i success Hrejected)
      as (effects & tasks' & -> & Hstill & Heffects).
    destruct (IH tasks' Hstill) as (more & tasks'' & -> & Hmore).
    eexists _, _. split; [done|]. by apply Forall_app.
Qed.

(** C2 as stated fails: "every list of collected subscriptions" includes
    the lists with an [undefined] entry, and on those no completion is ever
    signalled and the process does not exit, whatever answers arrive. *)
Lemma undefined_entry_never_completes :
  ¬ ∃ schedule,
      Exists (λ e, e = ConsoleLog "Done!" ∨ exits e = true)
        (replicate "ya29" [Some (channel "a"); None] schedule).1.
Proof.
  intros (schedule & Hdone). unfold replicate in Hdone.
  assert (loginDestination "ya29" [Some (channel "a"); None]
          = (replicatorHeader 2 ++ [subscribeRequest "ya29" (channel "a")],
             [UnhandledRejection],
             Some [ItemPending (channel "a"); ItemRejected])) as Hstart
    by reflexivity.
  rewrite Hstart in Hdone.
  destruct (settle_all_rejected schedule
              [ItemPending (channel "a"); ItemRejected])
    as (more & tasks & Hmore & Hquiet).
  { apply list_elem_of_lookup. by exists 1. }
  rewrite Hmore in Hdone. cbn [fst] in Hdone.
  rewrite !Exists_app in Hdone.
  destruct Hdone as [[Hdone | Hdone] | [Hdone | Hdone]].
  - unfold replicatorHeader in Hdone.
    repeat (apply Exists_cons in Hdone as [[Hd | Hd] | Hdone]; [done..|]).
    by apply Exists_nil in Hdone.
  - apply Exists_cons in Hdone as [[Hd | Hd] | Hdone]; [done..|].
    by apply Exists_nil in Hdone.
  - apply Exists_cons in Hdone as [[Hd | Hd] | Hdone]; [done..|].
    by apply Exists_nil in Hdone.
  - apply Exists_exists in Hdone as (e & He & Hdone).
    apply (proj1 (Forall_forall _ _) Hquiet) in He as [Hexit Hnot].
    destruct Hdone; congruence.
Qed.

(** C2, amended: for [N] collected subscription records, none of them
    [undefined], and any order in which the [N] requests are answered, the
    Replicator logs its two header lines and issues the [N] creation
    requests at once, in the order of the list, each a POST with the
    account's bearer token and the channel's [resourceId]; it logs one
    notice per answer, "Subscribed to" or "Failed to subscribe to" followed
    by the title, chosen by the answer's [ok] flag alone; after the last
    answer it logs "Done!" once and exits with status 0.  Before the last
    answer has arrived nothing but notices has been logged and the
    unanswered items are still awaited. *)
Theorem replicate_settles_all accessToken (subs : list SubscriptionSnippet)
    (schedule : list (nat * bool)) :
  schedule.*1 ≡ₚ seq 0 (length subs) →
  let started :=
    [ConsoleLog "Successfully logged in to destination account.";
     ConsoleLog ("Subscribing to " +:+ pretty (length subs) +:+ " channels ...")]
    ++ ((λ s,
           FetchPost
             "https://youtube.googleapis.com/youtube/v3/subscriptions?part=snippet"
             (Some ("Bearer " +:+ accessToken)) (Some (resourceId s)))
          <$> subs) in
  let logged (answer : nat * bool) :=
    if answer.2
    then ConsoleLog ("Subscribed to " +:+ title (subs !!! answer.1))
    else ConsoleLog ("Failed to subscribe to " +:+ title (subs !!! answer.1)) in
  replicate accessToken (Some <$> subs) schedule =
    (started ++ (logged <$> schedule) ++ [ConsoleLog "Done!"; ProcessExit 0],
     None)
  ∧ ∀ n, n < length schedule →
      replicate accessToken (Some <$> subs) (take n schedule) =
        (started ++ (logged <$> take n schedule),
         Some (tasks_awaiting subs (drop n schedule).*1)).
Proof.
  intros Hperm started logged.
  destruct (replicate_schedule accessToken subs schedule Hperm)
    as [Hfull Hcut].
  split; [exact Hfull|exact Hcut].
Qed.

Lemma replicate_settles_all_witness :
  let subs := channel <$> ["a"; "b"; "c"; "d"; "e"] in
  let schedule :=
    [(3, false); (0, true); (4, false); (1, false); (2, true)] in
  let post name :=
    FetchPost
      "https://youtube.googleapis.com/youtube/v3/subscriptions?part=snippet"
      (Some "Bearer ya29") (Some (mkResource "youtube#channel" name)) in
  let started :=
    [ConsoleLog "Successfully logged in to destination account.";
     ConsoleLog "Subscribing to 5 channels ...";
     post "UC-a"; post "UC-b"; post "UC-c"; post "UC-d"; post "UC-e"] in
  replicate "ya29" (Some <$> subs) schedule =
    (started
       ++ [ConsoleLog "Failed to subscribe to d"; ConsoleLog "Subscribed to a";
           ConsoleLog "Failed to subscribe to e";
           ConsoleLog "Failed to subscribe to b"; ConsoleLog "Subscribed to c"]
       ++ [ConsoleLog "Done!"; ProcessExit 0], None)
  ∧ replicate "ya29" (Some <$> subs) (take 4 schedule) =
      (started
         ++ [ConsoleLog "Failed to subscribe to d"; ConsoleLog "Subscribed to a";
             ConsoleLog "Failed to subscribe to e";
             ConsoleLog "Failed to subscribe to b"],
       Some [ItemSettled; ItemSettled; ItemPending (channel "c"); ItemSettled;
             ItemSettled]).
Proof.
  intros subs schedule post started.
  destruct (replicate_settles_all "ya29" subs schedule) as [Hfull Hcut].
  { vm_compute. solve_Permutation. }
  split; [exact Hfull|].
  apply (Hcut 4). vm_compute. lia.
Defined.

(** ** Callback receiver *)

Lemma emit_rejected body p :
  exited p = None → rejected body p (emit (CtxBody body) p).
Proof. intros Hp. unfold rejected, emit. by rewrite Hp. Qed.

Lemma callback_invalid_code code responseState p :
  valid_code code = false →
  callback code responseState p = emit (CtxBody failedLogin) p.
Proof.
  unfold valid_code, callback. intros Hcode.
  by rewrite <- negb_andb, Hcode.
Qed.

Lemma callback_invalid_state code responseState p :
  valid_code code = true →
  negb (qtruthy responseState) || strict_neq responseState (oauthState p)
    = true →
  callback code responseState p = emit (CtxBody invalidState) p.
Proof.
  unfold valid_code, callback. intros Hcode Hstate.
  by rewrite <- negb_andb, Hcode, Hstate.
Qed.

Lemma startLogin_alive uuid p :
  exited p = None →
  exited (startLogin uuid p) = None ∧ oauthState (startLogin uuid p) = uuid.
Proof. intros Hp. unfold startLogin, emit. simpl. by rewrite Hp. Qed.

(** C1: a callback whose [code] is missing or not a single string, or whose
    [state] is absent or differs from the current [oauthState], is answered
    with a failure message; phase, token, collected subscriptions and parked
    continuations stay as they are and nothing else is emitted. *)
Theorem callback_rejects_without_effect p code responseState :
  exited p = None →
  (∀ s, code ≠ QString s) ∨ responseState ≠ QString (oauthState p) →
  let p' := step (GetCallback code responseState) p in
  rejected failedLogin p p' ∨ rejected invalidState p p'.
Proof.
  intros Hp Hbad. unfold step. rewrite Hp.
  destruct (valid_code code) eqn:Hcode.
  - right. rewrite callback_invalid_state; [by apply emit_rejected|done|].
    destruct Hbad as [Hcode'|Hstate].
    + destruct code; try done. by destruct (Hcode' s).
    + destruct responseState as [|s|l]; try done. simpl.
      destruct (decide (s = oauthState p)) as [->|Hne]; [done|].
      rewrite (bool_decide_eq_true_2 (s ≠ oauthState p)) by done.
      by rewrite orb_true_r.
  - left. rewrite callback_invalid_code by done. by apply emit_rejected.
Qed.

Lemma callback_rejects_without_effect_witness :
  let p := boot sampleConfig "4e8d" in
  let p' := step (GetCallback (QString "4/0Ab") (QString "0000")) p in
  rejected failedLogin p p' ∨ rejected invalidState p p'.
Proof.
  apply (callback_rejects_without_effect (boot sampleConfig "4e8d")
           (QString "4/0Ab") (QString "0000")).
  - reflexivity.
  - right. discriminate.
Defined.

(** C7: once [startLogin] has stored a fresh value in [oauthState], a
    callback carrying the value held before is rejected: by the state check
    when its [code] is valid, by the code check otherwise. *)
Theorem regenerated_token_rejects_previous p uuid code :
  exited p = None →
  uuid ≠ oauthState p →
  let p' := startLogin uuid p in
  rejected (if valid_code code then invalidState else failedLogin) p'
    (step (GetCallback code (QString (oauthState p))) p').
Proof.
  intros Hp Hfresh p'.
  destruct (startLogin_alive uuid p Hp) as [Hp' Huuid]. fold p' in Hp', Huuid.
  unfold step. rewrite Hp'.
  destruct (valid_code code) eqn:Hcode.
  - rewrite callback_invalid_state; [by apply emit_rejected|done|].
    rewrite Huuid. simpl.
    rewrite (bool_decide_eq_true_2 (oauthState p ≠ uuid)) by done.
    by rewrite orb_true_r.
  - rewrite callback_invalid_code by done. by apply emit_rejected.
Qed.

Lemma regenerated_token_rejects_previous_witness :
  let p := boot sampleConfig "4e8d" in
  let p' := startLogin "91c2" p in
  rejected invalidState p' (step (GetCallback (QString "4/0Ab") (QString "4e8d")) p').
Proof.
  apply (regenerated_token_rejects_previous (boot sampleConfig "4e8d")
           "91c2" (QString "4/0Ab")).
  - reflexivity.
  - discriminate.
Defined.

(** C10 as stated fails: without a valid [code] the request is turned down
    by the code check, with the other message. *)
Lemma repeated_state_without_code :
  let p := boot sampleConfig "4e8d" in
  let p' := step (GetCallback QUndefined (QArray ["4e8d"; "4e8d"])) p in
  rejected failedLogin p p' ∧ ¬ rejected invalidState p p'.
Proof.
  split; [by vm_compute|]. intros [Hout _]. vm_compute in Hout. congruence.
Qed.

(** C10, amended: a callback with a valid [code] whose [state] parameter is
    repeated is rejected with the invalid-state message, whatever the
    repeated values are: an array is never strictly equal to a string. *)
Theorem repeated_state_rejected p code l :
  exited p = None →
  valid_code code = true →
  rejected invalidState p (step (GetCallback code (QArray l)) p).
Proof.
  intros Hp Hcode. unfold step. rewrite Hp.
  rewrite callback_invalid_state; [by apply emit_rejected|done..].
Qed.

Lemma repeated_state_rejected_witness :
  let p := boot sampleConfig "4e8d" in
  rejected invalidState p
    (step (GetCallback (QString "4/0Ab") (QArray ["4e8d"; "4e8d"])) p).
Proof.
  apply (repeated_state_rejected (boot sampleConfig "4e8d")
           (QString "4/0Ab") ["4e8d"; "4e8d"]); reflexivity.
Defined.

(** ** Orchestrator *)

(** [emit] and [perform] write nothing but [output] and [exited]. *)
Lemma emit_fields e p :
  applicationState (emit e p) = applicationState p
  ∧ oauthState (emit e p) = oauthState p
  ∧ subscriptions (emit e p) = subscriptions p
  ∧ pending (emit e p) = pending p
  ∧ fresh (emit e p) = fresh p.
Proof. unfold emit. by destruct (exited p). Qed.

Lemma perform_cons e effects p :
  perform (e :: effects) p = perform effects (emit e p).
Proof. done. Qed.

Lemma perform_app l1 l2 p : perform (l1 ++ l2) p = perform l2 (perform l1 p).
Proof. apply foldl_app. Qed.

Lemma perform_fields effects : ∀ p,
  applicationState (perform effects p) = applicationState p
  ∧ oauthState (perform effects p) = oauthState p
  ∧ subscriptions (perform effects p) = subscriptions p
  ∧ pending (perform effects p) = pending p
  ∧ fresh (perform effects p) = fresh p.
Proof.
  induction effects as [|e effects IH]; intros p; [done|].
  rewrite perform_cons. destruct (IH (emit e p)) as (-> & -> & -> & -> & ->).
  apply emit_fields.
Qed.

Lemma emit_output e p :
  exited p = None →
  output (emit e p) = output p ++ [e]
  ∧ exited (emit e p) = match e with ProcessExit c => Some c | _ => None end.
Proof. intros Hp. unfold emit. by rewrite Hp. Qed.

Lemma perform_output effects : ∀ p,
  exited p = None → Forall (λ e, exits e = false) effects →
  output (perform effects p) = output p ++ effects
  ∧ exited (perform effects p) = None.
Proof.
  induction effects as [|e effects IH]; intros p Hp Hno.
  - by rewrite app_nil_r.
  - apply Forall_cons in Hno as [He Hno]. rewrite perform_cons.
    destruct (emit_output e p Hp) as [Hout Hex].
    destruct (IH (emit e p)) as [-> ->]; [by destruct e|done|].
    by rewrite Hout, <- app_assoc.
Qed.

Lemma perform_dead effects : ∀ p c,
  exited p = Some c → perform effects p = p.
Proof.
  induction effects as [|e effects IH]; intros p c Hp; [done|].
  rewrite perform_cons. unfold emit at 1. rewrite Hp. by eapply IH.
Qed.

(** A dead process ignores every event. *)
Lemma run_dead events : ∀ p c, exited p = Some c → run events p = p.
Proof.
  induction events as [|e events IH]; intros p c Hp; [done|].
  unfold run. cbn [foldl]. fold (run events (step e p)).
  unfold step. rewrite Hp. by eapply IH.
Qed.

Lemma iteration_effects acc r :
  Forall (λ e, exits e = false ∧ opens_or_prompts e = false)
    (iteration acc r).1.
Proof.
  unfold iteration.
  destruct (negb (ok r)), (json r) as [body|]; try by repeat constructor.
  by destruct (truthy _).
Qed.

(** When [getAllSubscriptions] resolves to the empty array, the process
    logs the condition and exits with status 1; phase and token stay as they
    are, and whatever happens afterwards nothing more is emitted. *)
Lemma empty_enumeration_exits p t accessToken acc response effects events :
  exited p = None →
  pending p !! t = Some (Enumerating accessToken acc) →
  iteration acc response = (effects, LoopReturn []) →
  let q := run (PageResponse t response :: events) p in
  exited q = Some 1%Z
  ∧ output q = output p ++ effects ++ noSubscriptions
  ∧ Forall (λ e, opens_or_prompts e = false) (effects ++ noSubscriptions)
  ∧ applicationState q = applicationState p
  ∧ oauthState q = oauthState p.
Proof.
  intros Hp Ht Hit q.
  pose proof (iteration_effects acc response) as Heffects.
  rewrite Hit in Heffects. simpl in Heffects.
  assert (step (PageResponse t response) p
          = perform noSubscriptions
              (set_subscriptions [] (perform effects (unpark t p)))) as Hstep.
  { unfold step. by rewrite Hp, Ht, Hit. }
  destruct (perform_output effects (unpark t p) Hp) as [Hout Halive].
  { eapply Forall_impl; [done|]. by intros e [? _]. }
  destruct (perform_fields effects (unpark t p)) as (Hst & Htok & _).
  set (p1 := set_subscriptions [] (perform effects (unpark t p))) in *.
  assert (exited (perform noSubscriptions p1) = Some 1%Z
          ∧ output (perform noSubscriptions p1)
            = output p ++ effects ++ noSubscriptions) as [Hexit Houtput].
  { unfold noSubscriptions, perform, foldl, emit. subst p1. simpl.
    rewrite Halive. simpl. rewrite Hout. simpl.
    by rewrite <- !app_assoc. }
  subst q. unfold run. cbn [foldl].
  fold (run events (step (PageResponse t response) p)).
  rewrite Hstep, (run_dead _ _ _ Hexit).
  destruct (perform_fields noSubscriptions p1) as (-> & -> & _).
  repeat split; try done.
  apply Forall_app. split.
  - eapply Forall_impl; [done|]. by intros e [_ ?].
  - by repeat constructor.
Qed.

(** *** What the destination phase leaves alone *)

Create HintDb frame.

Lemma keeps_refl p : keeps p p.
Proof. by repeat split. Qed.

Lemma keeps_emit e p q : keeps p q → keeps p (emit e q).
Proof.
  intros Hq. destruct (emit_fields e q) as (H1 & _ & H2 & H3 & _).
  unfold keeps, quiescent in *. by rewrite H1, H2, H3.
Qed.

Lemma keeps_perform effects p q : keeps p q → keeps p (perform effects q).
Proof.
  intros Hq. destruct (perform_fields effects q) as (H1 & _ & H2 & H3 & _).
  unfold keeps, quiescent in *. by rewrite H1, H2, H3.
Qed.

Lemma keeps_park k p q :
  is_enumerating k = false → keeps p q → keeps p (park k q).
Proof.
  intros Hk (Hst & Hsubs & Hq). repeat split; [done..|].
  intros Hp. unfold quiescent, park. simpl.
  apply map_Forall_insert_2; [done|]. by apply Hq.
Qed.

Lemma keeps_unpark t p q : keeps p q → keeps p (unpark t q).
Proof.
  intros (Hst & Hsubs & Hq). repeat split; [done..|].
  intros Hp. unfold quiescent, unpark. simpl.
  apply map_Forall_delete. by apply Hq.
Qed.

Lemma keeps_resume t k p q :
  is_enumerating k = false →
  keeps p q → keeps p (set_pending (<[t := k]> (pending q)) q).
Proof.
  intros Hk (Hst & Hsubs & Hq). repeat split; [done..|].
  intros Hp. unfold quiescent. simpl.
  apply map_Forall_insert_2; [done|]. by apply Hq.
Qed.

Lemma keeps_startLogin uuid p q : keeps p q → keeps p (startLogin uuid q).
Proof. intros Hq. unfold startLogin. by apply keeps_emit. Qed.

Lemma keeps_set_destination p q :
  applicationState p = login_destination →
  keeps p q → keeps p (set_applicationState login_destination q).
Proof. intros Hp (Hst & Hsubs & Hq). by repeat split. Qed.

Lemma keeps_loginDestination_start accessToken p q :
  keeps p q → keeps p (loginDestination_start accessToken q).1.
Proof.
  intros Hq. unfold loginDestination_start.
  destruct (loginDestination _ _) as [[started deferred] [tasks|]]; simpl.
  - by apply keeps_park, keeps_perform.
  - by apply keeps_perform.
Qed.

#[local] Hint Resolve keeps_refl keeps_emit keeps_perform keeps_park
  keeps_unpark keeps_resume keeps_startLogin keeps_set_destination
  keeps_loginDestination_start : frame.

Lemma keeps_callback code responseState p :
  keeps p (callback code responseState p).
Proof.
  unfold callback. repeat case_match; auto with frame.
Qed.

Lemma keeps_callback_resume response p q :
  applicationState p = login_destination →
  keeps p q → keeps p (callback_resume response q).
Proof.
  intros Hp Hq. unfold callback_resume.
  destruct (exchangeForAccessToken response) as [[effects [accessToken|]]|];
    [|auto with frame..].
  assert (applicationState (perform effects q) = login_destination) as Hst.
  { destruct (perform_fields effects q) as (-> & _). destruct Hq as (-> & _).
    done. }
  cbv zeta.
  destruct (decide (applicationState (perform effects q) = login_source));
    [congruence|].
  destruct (decide (applicationState (perform effects q) = login_destination));
    [|done].
  pose proof (keeps_loginDestination_start accessToken p (perform effects q))
    as Hstart.
  destruct (loginDestination_start _ _) as [q' deferred].
  auto with frame.
Qed.

Lemma keeps_step e p : destination_settled p → keeps p (step e p).
Proof.
  intros [Hst Hquiet]. unfold step.
  destruct (exited p); [apply keeps_refl|].
  destruct e as [code responseState| |t response|t response|t login uuid
                |t i response].
  - apply keeps_callback.
  - auto with frame.
  - destruct (pending p !! t) as [[]|]; auto using keeps_callback_resume with frame.
  - destruct (pending p !! t) as [k|] eqn:Ht; [|apply keeps_refl].
    apply Hquiet in Ht. destruct k; try apply keeps_refl. done.
  - unfold promptSourceLogin_resume, promptDestinationLogin_resume.
    destruct (pending p !! t) as [[]|]; destruct login; simpl;
      auto with frame.
  - destruct (pending p !! t) as [[| | | |tasks]|]; try apply keeps_refl.
    destruct (settle tasks i (ok response)) as [effects [tasks'|]];
      auto with frame.
Qed.

(** Once the destination phase has begun with no enumeration in flight, no
    event changes the phase or the collected subscriptions. *)
Lemma run_destination_settled events : ∀ p,
  destination_settled p →
  destination_settled (run events p)
  ∧ subscriptions (run events p) = subscriptions p.
Proof.
  induction events as [|e events IH]; intros p Hp; [done|].
  unfold run. cbn [foldl]. fold (run events (step e p)).
  destruct (keeps_step e p Hp) as (Hst & Hsubs & Hquiet).
  destruct Hp as [Hdest Hq].
  destruct (IH (step e p)) as [Hsettled ->].
  - split; [congruence|by apply Hquiet].
  - done.
Qed.

(** *** The destination callback *)

Lemma loginDestination_cases accessToken subs :
  ∃ deferred k,
    loginDestination accessToken subs =
      (replicatorHeader (length subs)
         ++ omap (subscribeChannel accessToken) subs, deferred, k)
    ∧ (deferred = [UnhandledRejection] ∨ deferred = completion
       ∨ deferred = []).
Proof.
  unfold loginDestination.
  destruct (existsb _ _); [by eauto 6|]. destruct (forallb _ _); by eauto 6.
Qed.

Lemma subscribe_requests_quiet accessToken subs :
  Forall (λ e, exits e = false ∧ e ≠ loggedInDestination)
    (omap (subscribeChannel accessToken) subs).
Proof.
  induction subs as [|[s|] subs IH]; csimpl; [done| |done].
  by constructor.
Qed.

Lemma replicatorHeader_quiet n :
  Forall (λ e, exits e = false) (replicatorHeader n).
Proof. by repeat constructor. Qed.

Lemma invocations_app l1 l2 :
  invocations (l1 ++ l2) = invocations l1 + invocations l2.
Proof. unfold invocations. by rewrite filter_app, length_app. Qed.

Lemma invocations_none l :
  Forall (λ e, e ≠ loggedInDestination) l → invocations l = 0.
Proof.
  unfold invocations. induction 1 as [|e l He _ IH]; [done|].
  by rewrite filter_cons_False.
Qed.

Lemma invocations_header n : invocations (replicatorHeader n) = 1.
Proof.
  unfold invocations, replicatorHeader.
  rewrite filter_cons_True by done.
  rewrite filter_cons_False; [done|]. unfold loggedInDestination.
  simpl. discriminate.
Qed.

Lemma perform_completion p :
  exited p = None → output (perform completion p) = output p ++ completion.
Proof.
  intros Hp. unfold completion. rewrite !perform_cons.
  destruct (emit_output (ConsoleLog "Done!") p Hp) as [Hout1 Hp1].
  destruct (emit_output (ProcessExit 0) _ Hp1) as [Hout2 _].
  change (perform [] ?x) with x. by rewrite Hout2, Hout1, <- app_assoc.
Qed.

(** The [/callback] handler resumed in [login_destination] with a token:
    [loginDestination] runs on the current [subscriptions]. *)
Lemma callback_resume_destination response accessToken q :
  exited q = None →
  applicationState q = login_destination →
  exchangeForAccessToken response = Some ([], Some accessToken) →
  ∃ started deferred k,
    loginDestination accessToken (subscriptions q) = (started, deferred, k)
    ∧ output (callback_resume response q)
      = output q ++ started ++ CtxBody checkTerminal :: deferred
    ∧ invocations (started ++ CtxBody checkTerminal :: deferred) = 1.
Proof.
  intros Hq Hst Hexchange.
  destruct (loginDestination_cases accessToken (subscriptions q))
    as (deferred & k & Hlogin & Hdeferred).
  eexists _, deferred, k. split; [done|]. split.
  - unfold callback_resume. rewrite Hexchange. cbv zeta.
    change (perform [] q) with q.
    destruct (decide (applicationState q = login_source)) as [?|_];
      [congruence|].
    destruct (decide (applicationState q = login_destination)) as [_|?];
      [|done].
    unfold loginDestination_start. rewrite Hlogin.
    set (started := replicatorHeader _ ++ _).
    destruct (perform_output started q Hq) as [Hout Halive].
    { apply Forall_app. split; [apply replicatorHeader_quiet|].
      eapply Forall_impl; [apply subscribe_requests_quiet|]. by intros e [? _]. }
    assert (∀ q', exited q' = None → output q' = output q ++ started →
              output (perform deferred (emit (CtxBody checkTerminal) q'))
              = output q ++ started ++ CtxBody checkTerminal :: deferred)
      as Hrest.
    { intros q' Hq' Hout'.
      destruct (emit_output (CtxBody checkTerminal) q' Hq') as [Hout1 Hq1].
      destruct Hdeferred as [->| [->| ->]].
      - destruct (perform_output [UnhandledRejection] _ Hq1) as [-> _];
          [by repeat constructor|].
        by rewrite Hout1, Hout', <- !app_assoc.
      - rewrite (perform_completion _ Hq1).
        by rewrite Hout1, Hout', <- !app_assoc.
      - change (perform [] ?x) with x.
        by rewrite Hout1, Hout', <- !app_assoc. }
    destruct k as [tasks|]; by apply Hrest.
  - rewrite invocations_app, invocations_app, invocations_header.
    rewrite (invocations_none (omap _ _)).
    + rewrite (invocations_none (_ :: _)); [done|].
      constructor; [done|]. by destruct Hdeferred as [->| [->| ->]];
        repeat constructor.
    + eapply Forall_impl; [apply subscribe_requests_quiet|]. by intros e [_ ?].
Qed.

(** C8 as stated fails: a second source login accepted during
    [login_source] may finish its enumeration after the phase has moved on,
    and the Replicator then works on what that enumeration collected. *)
Lemma late_enumeration_replaces_sequence :
  let p := run overlappingSources (boot sampleConfig "init") in
  let q := run lateEnumeration p in
  applicationState p = login_destination
  ∧ subscriptions p = [Some (channel "a")]
  ∧ exited q = None
  ∧ applicationState q = login_destination
  ∧ pending q !! 7 = Some Exchanging
  ∧ exchangeForAccessToken (granted "ya29.c") = Some ([], Some "ya29.c")
  ∧ output (step (TokenResponse 7 (granted "ya29.c")) q) =
      output q ++ replicatorHeader 1
      ++ [subscribeRequest "ya29.c" (channel "b"); CtxBody checkTerminal]
  ∧ ¬ ∃ started deferred k,
        loginDestination "ya29.c" (subscriptions p) = (started, deferred, k)
        ∧ output (step (TokenResponse 7 (granted "ya29.c")) q)
          = output q ++ started ++ CtxBody checkTerminal :: deferred.
Proof.
  do 7 (split; [vm_compute; reflexivity|]).
  intros (started & deferred & k & Hlogin & Hout).
  vm_compute in Hlogin. injection Hlogin as <- <- <-.
  vm_compute in Hout. discriminate.
Qed.

(** C8, amended: a callback accepted in [login_destination] whose code
    exchanges for a token enters [loginDestination] exactly once, on the
    current value of [subscriptions]; if no source enumeration was in flight
    when the destination phase began, that value is the sequence collected
    in the source phase, whatever events came in between. *)
Theorem replicator_uses_captured_sequence p events t response accessToken :
  destination_settled p →
  let q := run events p in
  exited q = None →
  pending q !! t = Some Exchanging →
  exchangeForAccessToken response = Some ([], Some accessToken) →
  ∃ started deferred k,
    loginDestination accessToken (subscriptions p) = (started, deferred, k)
    ∧ output (step (TokenResponse t response) q)
      = output q ++ started ++ CtxBody checkTerminal :: deferred
    ∧ invocations (started ++ CtxBody checkTerminal :: deferred) = 1.
Proof.
  intros Hp q Hq Ht Hexchange.
  destruct (run_destination_settled events p Hp) as [[Hst _] Hsubs].
  fold q in Hst, Hsubs.
  unfold step. rewrite Hq, Ht. rewrite <- Hsubs.
  by apply (callback_resume_destination response accessToken (unpark t q)).
Qed.

Lemma replicator_uses_captured_sequence_witness :
  let p := run singleSource (boot sampleConfig "init") in
  let q := run [GetRoot; GetCallback (QString "4/0Ef") (QString "91c2")] p in
  ∃ started deferred k,
    loginDestination "ya29.c" (subscriptions p) = (started, deferred, k)
    ∧ output (step (TokenResponse 4 (granted "ya29.c")) q)
      = output q ++ started ++ CtxBody checkTerminal :: deferred
    ∧ invocations (started ++ CtxBody checkTerminal :: deferred) = 1.
Proof.
  apply (replicator_uses_captured_sequence
           (run singleSource (boot sampleConfig "init"))
           [GetRoot; GetCallback (QString "4/0Ef") (QString "91c2")]
           4 (granted "ya29.c") "ya29.c").
  - split; [reflexivity|]. apply (bool_decide_unpack _). by vm_compute.
  - reflexivity.
  - reflexivity.
  - reflexivity.
Defined.

(** *** Pages without [items] *)





(** *** The process runs the Enumerator and the Replicator *)

Lemma emit_set_pending m e p :
  emit e (set_pending m p) = set_pending m (emit e p).
Proof. by destruct p as [? ? ? ? ? ? ? []]. Qed.

Lemma perform_set_pending m effects : ∀ p,
  perform effects (set_pending m p) = set_pending m (perform effects p).
Proof.
  induction effects as [|e effects IH]; intros p; [done|].
  by rewrite !perform_cons, emit_set_pending, IH.
Qed.

Lemma set_pending_same p : set_pending (pending p) p = p.
Proof. by destruct p. Qed.

Lemma set_pending_twice m1 m2 p :
  set_pending m2 (set_pending m1 p) = set_pending m2 p.
Proof. done. Qed.

Lemma run_cons e events p : run (e :: events) p = run events (step e p).
Proof. done. Qed.

Lemma run_app l1 l2 p : run (l1 ++ l2) p = run l2 (run l1 p).
Proof. apply foldl_app. Qed.

(** Page answers addressed to a continuation that is not an enumeration
    are dropped. *)
Lemma run_pages_stale t responses : ∀ p,
  (∀ accessToken acc, pending p !! t ≠ Some (Enumerating accessToken acc)) →
  run (PageResponse t <$> responses) p = p.
Proof.
  induction responses as [|r responses IH]; intros p Ht; [done|].
  rewrite fmap_cons, run_cons.
  assert (step (PageResponse t r) p = p) as ->; [|by apply IH].
  unfold step. destruct (exited p); [done|].
  destruct (pending p !! t) as [[| |accessToken acc| |]|] eqn:Hk; try done.
  by destruct (Ht accessToken acc).
Qed.

Lemma enumerate_first_request accessToken responses nextPage acc :
  ∃ more, (enumerate accessToken nextPage acc responses).1
          = fetchPage accessToken nextPage :: more.
Proof.
  destruct responses as [|r responses]; [by eexists|]. cbn [enumerate].
  destruct (iteration acc r) as [effects [acc'|nextPage' acc'|acc']];
    [by eexists| |by eexists].
  destruct (enumerate _ _ _ _). by eexists.
Qed.

Lemma perform_pending effects p : pending (perform effects p) = pending p.
Proof. by destruct (perform_fields effects p) as (_ & _ & _ & -> & _). Qed.


Lemma loginSource_resume_pending result t q :
  pending q !! t = None →
  ∀ accessToken acc,
    pending (loginSource_resume result q) !! t
    ≠ Some (Enumerating accessToken acc).
Proof.
  intros Ht accessToken acc. unfold loginSource_resume.
  destruct (bool_decide _).
  - rewrite perform_pending. simpl. by rewrite Ht.
  - unfold park. cbn [pending]. rewrite perform_pending, lookup_insert.
    destruct (decide _); [done|]. simpl. by rewrite Ht.
Qed.

(** The process, fed the page answers of an enumeration parked as
    continuation [t], does what [enumerate] does: it issues the same
    requests (the first one was issued when the continuation was parked)
    and, once the loop returns, resumes [loginSource] with the same
    array; if the loop throws, the rejection is left unhandled and no
    variable is written. *)
Lemma run_enumerate accessToken t responses : ∀ p nextPage acc,
  exited p = None →
  pending p !! t = Some (Enumerating accessToken acc) →
  run (PageResponse t <$> responses) p =
    match enumerate accessToken nextPage acc responses with
    | (effects, Suspended acc') =>
      set_pending (<[t := Enumerating accessToken acc']> (pending p))
        (perform (tail effects) p)
    | (effects, Resolved result) =>
      loginSource_resume result (perform (tail effects) (unpark t p))
    | (effects, Threw _) =>
      perform (tail effects ++ [UnhandledRejection]) (unpark t p)
    end.
Proof.
  induction responses as [|r responses IH]; intros p nextPage acc Hp Ht.
  - simpl. change (perform [] p) with p.
    by rewrite insert_id, set_pending_same.
  - rewrite fmap_cons, run_cons. cbn [enumerate].
    assert (step (PageResponse t r) p =
            match iteration acc r with
            | (effects, LoopAgain nextPage' acc') =>
              set_pending (<[t := Enumerating accessToken acc']> (pending p))
                (perform (effects ++ [fetchPage accessToken nextPage']) p)
            | (effects, LoopReturn result) =>
              loginSource_resume result (perform effects (unpark t p))
            | (effects, LoopThrow _) =>
              perform (effects ++ [UnhandledRejection]) (unpark t p)
            end) as -> by (unfold step; by rewrite Hp, Ht).
    pose proof (iteration_effects acc r) as Hquiet.
    destruct (iteration acc r) as [effects [result|nextPage' acc'|acc']].
    + simpl. apply run_pages_stale, loginSource_resume_pending.
      rewrite perform_pending. simpl. by rewrite lookup_delete_eq.
    + set (p1 := set_pending _ _).
      assert (exited p1 = None) as Hp1.
      { subst p1. simpl. apply perform_output; [done|].
        apply Forall_app. split; [|by repeat constructor].
        eapply Forall_impl; [done|]. by intros e [? _]. }
      assert (pending p1 !! t = Some (Enumerating accessToken acc')) as Ht1.
      { subst p1. simpl. by rewrite lookup_insert_eq. }
      rewrite (IH p1 nextPage' acc' Hp1 Ht1).
      destruct (enumerate_first_request accessToken responses nextPage' acc')
        as [more Hfirst].
      destruct (enumerate accessToken nextPage' acc' responses)
        as [effects' result]. simpl in Hfirst. subst effects'. simpl.
      subst p1.
      destruct result as [result|acc''|acc''].
      * unfold unpark at 1. simpl. rewrite delete_insert_eq.
        rewrite perform_set_pending, <- !perform_set_pending.
        rewrite <- !perform_app, <- app_assoc. done.
      * simpl. rewrite insert_insert_eq.
        rewrite !perform_set_pending, set_pending_twice.
        by rewrite <- !perform_app, <- app_assoc.
      * unfold unpark at 1. simpl. rewrite delete_insert_eq.
        rewrite perform_set_pending, <- !perform_set_pending.
        rewrite <- !perform_app, <- !app_assoc. done.
    + simpl. apply run_pages_stale. intros accessToken' acc''.
      rewrite perform_pending. simpl. by rewrite lookup_delete_eq.
Qed.






(** * Further properties of the handlers *)

(** A live process performing effects none of which is an exit. *)
Lemma perform_quiet effects : ∀ p,
  exited p = None → Forall (λ e, exits e = false) effects →
  perform effects p =
    mkProcess (applicationState p) (oauthState p) (config p)
      (subscriptions p) (pending p) (fresh p) (output p ++ effects) None.
Proof.
  induction effects as [|e effects IH]; intros p Hp Hquiet.
  - rewrite app_nil_r, <- Hp. by destruct p.
  - apply Forall_cons in Hquiet as [He Hquiet]. rewrite perform_cons.
    rewrite IH; [|by destruct (emit_output e p Hp) as [_ ->]; destruct e|done].
    unfold emit. rewrite Hp. simpl. by rewrite <- app_assoc.
Qed.

Lemma emit_quiet e p :
  exited p = None → exits e = false →
  emit e p =
    mkProcess (applicationState p) (oauthState p) (config p)
      (subscriptions p) (pending p) (fresh p) (output p ++ [e]) None.
Proof. intros Hp He. unfold emit. rewrite Hp. by destruct e. Qed.

(** ** Token exchange and dispatch *)

(** X1: when the token endpoint answers with a non-success status, or with a
    body that is not JSON or whose [access_token] is missing or empty, no
    flow is started: phase, token and collected subscriptions stay as they
    are.  If the body is JSON the handler logs one diagnostic and answers
    "No access token received"; if it is not, [response.json()] rejects
    before anything is logged and the handler rejects without setting a
    body. *)
Theorem failed_exchange_keeps_phase p t response :
  exited p = None →
  pending p !! t = Some Exchanging →
  ok response = false ∨ truthy (json response ≫= access_token) = false →
  let p' := step (TokenResponse t response) p in
  output p' =
    output p
    ++ match json response with
       | Some _ =>
         [if ok response
          then ConsoleLogDiagnostic
                 "Failed to login using YouTube: Response did not contain an access_token"
                 None
          else ConsoleLogDiagnostic "Failed to login using YouTube"
                 (Some (status response));
          CtxBody "Failed to login with YouTube. No access token received."]
       | None => [HandlerRejected]
       end
  ∧ applicationState p' = applicationState p
  ∧ oauthState p' = oauthState p
  ∧ subscriptions p' = subscriptions p
  ∧ pending p' = delete t (pending p)
  ∧ exited p' = None.
Proof.
  intros Hp Ht Hfail p'. subst p'. unfold step. rewrite Hp, Ht.
  unfold callback_resume, exchangeForAccessToken.
  destruct (json response) as [body|]; destruct (ok response); cbn [negb].
  - destruct Hfail as [? | Hfail]; [done|]. simpl in Hfail.
    rewrite Hfail. cbn [negb].
    rewrite perform_quiet by (done || by repeat constructor).
    rewrite emit_quiet by done. simpl. by rewrite <- app_assoc.
  - rewrite perform_quiet by (done || by repeat constructor).
    rewrite emit_quiet by done. simpl. by rewrite <- app_assoc.
  - by rewrite emit_quiet.
  - by rewrite emit_quiet.
Qed.

Lemma failed_exchange_keeps_phase_witness :
  let p := run (take 2 singleSource) (boot sampleConfig "init") in
  let p' :=
    step (TokenResponse 1 (mkResponse true 200 (Some (mkTokenBody (Some ""))))) p in
  output p' =
    output p
    ++ [ConsoleLogDiagnostic
          "Failed to login using YouTube: Response did not contain an access_token"
          None;
        CtxBody "Failed to login with YouTube. No access token received."]
  ∧ applicationState p' = applicationState p
  ∧ oauthState p' = oauthState p
  ∧ subscriptions p' = subscriptions p
  ∧ pending p' = delete 1 (pending p)
  ∧ exited p' = None.
Proof.
  apply (failed_exchange_keeps_phase
           (run (take 2 singleSource) (boot sampleConfig "init")) 1
           (mkResponse true 200 (Some (mkTokenBody (Some ""))))).
  - reflexivity.
  - reflexivity.
  - right. reflexivity.
Defined.

(** A token endpoint that answers 502 with an HTML page: the handler
    rejects, nothing is logged and no body is set. *)
Lemma failed_exchange_without_json :
  let p := run (take 2 singleSource) (boot sampleConfig "init") in
  output (step (TokenResponse 1 (mkResponse false 502 None)) p)
  = output p ++ [HandlerRejected].
Proof. reflexivity. Qed.

(** X2: a callback is accepted exactly when [code] is a single non-empty
    string and [state] is a single non-empty string equal to [oauthState];
    then the token request carrying the code is issued and the handler
    waits.  Every other callback is turned down with one of the two failure
    messages. *)
Theorem callback_accepted_or_rejected p code responseState :
  exited p = None →
  let p' := step (GetCallback code responseState) p in
  (∃ c, code = QString c ∧ c ≠ "" ∧ responseState = QString (oauthState p)
        ∧ oauthState p ≠ "" ∧ accepted c p p')
  ∨ ((¬ ∃ c, code = QString c ∧ c ≠ "" ∧ responseState = QString (oauthState p)
             ∧ oauthState p ≠ "")
     ∧ (rejected failedLogin p p' ∨ rejected invalidState p p')).
Proof.
  intros Hp p'. subst p'. unfold step. rewrite Hp.
  assert (∀ body, valid_code code = false → body = failedLogin →
            rejected body p (callback code responseState p)) as Hbad.
  { intros body Hcode ->. rewrite callback_invalid_code by done.
    by apply emit_rejected. }
  destruct code as [|c|l].
  1, 3: right; split; [by intros (c' & [=] & _)|left; by apply Hbad].
  destruct (decide (c = "")) as [->|Hc].
  { right. split; [by intros (c' & [= <-] & ? & _)|left; by apply Hbad]. }
  assert (valid_code (QString c) = true) as Hcode.
  { unfold valid_code. simpl. by rewrite bool_decide_eq_true_2. }
  assert (negb (qtruthy responseState)
          || strict_neq responseState (oauthState p) = true →
          rejected invalidState p (callback (QString c) responseState p))
    as Hstate.
  { intros Hstate. rewrite callback_invalid_state by done.
    by apply emit_rejected. }
  destruct responseState as [|s|l].
  1, 3: right; split; [by intros (c' & _ & _ & [=] & _)|right; by apply Hstate].
  destruct (decide (s = "")) as [->|Hs].
  { right. split; [|right; by apply Hstate].
    intros (c' & _ & _ & [= Heq] & Htok). by rewrite <- Heq in Htok. }
  destruct (decide (s = oauthState p)) as [->|Hne].
  - left. exists c. repeat split; try done.
    all: unfold callback; simpl.
    all: rewrite !(bool_decide_eq_true_2 (_ ≠ "")) by done.
    all: rewrite (bool_decide_eq_false_2 (oauthState p ≠ oauthState p))
           by (by intros ?).
    all: simpl; by rewrite emit_quiet.
  - right. split; [by intros (c' & _ & _ & [= ->] & _)|].
    right. apply Hstate. simpl.
    rewrite (bool_decide_eq_true_2 (s ≠ oauthState p)) by done.
    by rewrite orb_true_r.
Qed.

Lemma callback_accepted_or_rejected_witness :
  let p := run (take 1 singleSource) (boot sampleConfig "init") in
  let p' := step (GetCallback (QString "4/0Ab") (QString "4e8d")) p in
  (∃ c, QString "4/0Ab" = QString c ∧ c ≠ "" ∧ QString "4e8d" = QString (oauthState p)
        ∧ oauthState p ≠ "" ∧ accepted c p p')
  ∨ ((¬ ∃ c, QString "4/0Ab" = QString c ∧ c ≠ ""
             ∧ QString "4e8d" = QString (oauthState p) ∧ oauthState p ≠ "")
     ∧ (rejected failedLogin p p' ∨ rejected invalidState p p')).
Proof.
  apply (callback_accepted_or_rejected
           (run (take 1 singleSource) (boot sampleConfig "init"))
           (QString "4/0Ab") (QString "4e8d")).
  reflexivity.
Defined.

(** X3: in [login_source], a successful exchange starts the source flow: two
    console lines, the first page request (no [pageToken], the new bearer
    token), then the response body; the enumeration waits with an empty
    array and no variable is written yet. *)
Theorem source_login_starts_enumeration p t response accessToken :
  exited p = None →
  pending p !! t = Some Exchanging →
  applicationState p = login_source →
  ok response = true →
  json response = Some (mkTokenBody (Some accessToken)) →
  accessToken ≠ "" →
  let p' := step (TokenResponse t response) p in
  output p' =
    output p
    ++ [ConsoleLog "Successfully logged in to source account.";
        ConsoleLog "Collecting subscribed channels ...";
        FetchGet
          "https://youtube.googleapis.com/youtube/v3/subscriptions?part=id,snippet&maxResults=50&mine=true"
          ("Bearer " +:+ accessToken);
        CtxBody checkTerminal]
  ∧ pending p' = <[fresh p := Enumerating accessToken []]> (delete t (pending p))
  ∧ applicationState p' = login_source
  ∧ oauthState p' = oauthState p
  ∧ subscriptions p' = subscriptions p
  ∧ exited p' = None.
Proof.
  intros Hp Ht Hst Hok Htoken Hne p'. subst p'. unfold step. rewrite Hp, Ht.
  unfold callback_resume, exchangeForAccessToken. rewrite Hok, Htoken. simpl.
  cbn [negb truthy]. rewrite (bool_decide_eq_true_2 _ Hne). cbn [negb].
  cbv zeta. change (perform [] ?x) with x.
  destruct (decide (applicationState (unpark t p) = login_source)) as [_|?];
    [|done].
  unfold loginSource.
  rewrite (perform_quiet _ (unpark t p)) by (done || by repeat constructor).
  destruct (decide _) as [Hdest|_]; [simpl in Hdest; congruence|].
  change (perform [] ?x) with x.
  rewrite emit_quiet by done. simpl. by rewrite <- !app_assoc.
Qed.

Lemma source_login_starts_enumeration_witness :
  let p := run (take 2 singleSource) (boot sampleConfig "init") in
  let p' := step (TokenResponse 1 (granted "ya29.a")) p in
  output p' =
    output p
    ++ [ConsoleLog "Successfully logged in to source account.";
        ConsoleLog "Collecting subscribed channels ...";
        FetchGet
          "https://youtube.googleapis.com/youtube/v3/subscriptions?part=id,snippet&maxResults=50&mine=true"
          ("Bearer " +:+ "ya29.a");
        CtxBody checkTerminal]
  ∧ pending p' = <[fresh p := Enumerating "ya29.a" []]> (delete 1 (pending p))
  ∧ applicationState p' = login_source
  ∧ oauthState p' = oauthState p
  ∧ subscriptions p' = subscriptions p
  ∧ exited p' = None.
Proof.
  apply (source_login_starts_enumeration
           (run (take 2 singleSource) (boot sampleConfig "init")) 1
           (granted "ya29.a") "ya29.a").
  - reflexivity.
  - reflexivity.
  - reflexivity.
  - reflexivity.
  - reflexivity.
  - discriminate.
Defined.

(** ** Which handler writes which variable *)

Lemma emit_config e p : config (emit e p) = config p.
Proof. unfold emit. by destruct (exited p). Qed.

Lemma perform_config effects : ∀ p, config (perform effects p) = config p.
Proof.
  induction effects as [|e effects IH]; intros p; [done|].
  by rewrite perform_cons, IH, emit_config.
Qed.

Lemma emit_applicationState e p :
  applicationState (emit e p) = applicationState p.
Proof. by destruct (emit_fields e p) as (-> & _). Qed.

Lemma emit_oauthState e p : oauthState (emit e p) = oauthState p.
Proof. by destruct (emit_fields e p) as (_ & -> & _). Qed.

Lemma emit_subscriptions e p : subscriptions (emit e p) = subscriptions p.
Proof. by destruct (emit_fields e p) as (_ & _ & -> & _). Qed.

Lemma perform_applicationState effects p :
  applicationState (perform effects p) = applicationState p.
Proof. by destruct (perform_fields effects p) as (-> & _). Qed.

Lemma perform_oauthState effects p :
  oauthState (perform effects p) = oauthState p.
Proof. by destruct (perform_fields effects p) as (_ & -> & _). Qed.

Lemma perform_subscriptions effects p :
  subscriptions (perform effects p) = subscriptions p.
Proof. by destruct (perform_fields effects p) as (_ & _ & -> & _). Qed.

(** Unfold the handlers down to [emit], [perform] and the record setters. *)
Ltac unfold_handlers :=
  unfold callback, callback_resume, loginSource, loginSource_resume,
    loginDestination_start, promptSourceLogin_resume,
    promptDestinationLogin_resume, startLogin, park, unpark,
    set_pending, set_subscriptions, set_applicationState, set_oauthState.

(** Read a variable of a process built by the handlers. *)
Ltac fields :=
  repeat (progress
    (cbn [applicationState oauthState config subscriptions pending fresh];
     rewrite ?emit_config, ?perform_config, ?emit_applicationState,
       ?emit_oauthState, ?emit_subscriptions, ?perform_applicationState,
       ?perform_oauthState, ?perform_subscriptions)).

Ltac handler_cases :=
  unfold_handlers; repeat case_match; simplify_eq; fields.

Lemma step_variables e p :
  config (step e p) = config p
  ∧ (resumes_enumeration e = false →
     subscriptions (step e p) = subscriptions p)
  ∧ (answers_prompt e = false →
     applicationState (step e p) = applicationState p
     ∧ oauthState (step e p) = oauthState p)
  ∧ (applicationState (step e p) = applicationState p
     ∨ applicationState (step e p) = login_destination).
Proof.
  unfold step. destruct (exited p); [by auto|].
  destruct e; handler_cases; repeat split; auto; done.
Qed.

(** X4: no handler assigns [config]; [subscriptions] is assigned only when
    a page response resumes an enumeration, and [applicationState] and
    [oauthState] only when a prompt is answered.  In particular callbacks,
    token responses and subscribe responses write none of them. *)
Theorem handlers_write_their_own_variables e p :
  config (step e p) = config p
  ∧ (if resumes_enumeration e then True
     else subscriptions (step e p) = subscriptions p)
  ∧ (if answers_prompt e then True
     else applicationState (step e p) = applicationState p
          ∧ oauthState (step e p) = oauthState p).
Proof.
  destruct (step_variables e p) as (Hconfig & Hsubs & Hsession & _).
  split; [done|]. split.
  - destruct (resumes_enumeration e); [done|]. by apply Hsubs.
  - destruct (answers_prompt e); [done|]. by apply Hsession.
Qed.

(** X5: the phase only moves forward: once [applicationState] is
    [login_destination] it stays so, whatever events follow. *)
Theorem phase_never_returns events : ∀ p,
  applicationState p = login_destination →
  applicationState (run events p) = login_destination.
Proof.
  induction events as [|e events IH]; intros p Hp; [done|].
  rewrite run_cons. apply IH.
  destruct (step_variables e p) as (_ & _ & _ & [?|?]); congruence.
Qed.

Lemma phase_never_returns_witness :
  applicationState
    (run lateEnumeration (run singleSource (boot sampleConfig "init")))
  = login_destination.
Proof.
  apply (phase_never_returns lateEnumeration
           (run singleSource (boot sampleConfig "init"))).
  reflexivity.
Defined.

(** ** Prompts *)

(** X6: declining either confirmation ends the process with status 0 at
    once: nothing else is emitted, no variable is written, and later events
    find a dead process. *)
Theorem declined_prompt_exits p t uuid events :
  exited p = None →
  pending p !! t = Some PromptingSource
  ∨ pending p !! t = Some PromptingDestination →
  let q := run (PromptAnswer t false uuid :: events) p in
  exited q = Some 0%Z
  ∧ output q = output p ++ [ProcessExit 0]
  ∧ applicationState q = applicationState p
  ∧ oauthState q = oauthState p
  ∧ subscriptions q = subscriptions p.
Proof.
  intros Hp Ht q. subst q. rewrite run_cons.
  assert (step (PromptAnswer t false uuid) p = emit (ProcessExit 0) (unpark t p))
    as ->.
  { unfold step. rewrite Hp. by destruct Ht as [-> | ->]. }
  assert (exited (emit (ProcessExit 0) (unpark t p)) = Some 0%Z) as Hexit.
  { unfold emit. simpl. by rewrite Hp. }
  rewrite (run_dead _ _ _ Hexit). unfold emit. simpl. by rewrite Hp.
Qed.

Lemma declined_prompt_exits_witness :
  let p := boot sampleConfig "init" in
  let q := run (PromptAnswer 0 false "4e8d" :: singleSource) p in
  exited q = Some 0%Z
  ∧ output q = output p ++ [ProcessExit 0]
  ∧ applicationState q = applicationState p
  ∧ oauthState q = oauthState p
  ∧ subscriptions q = subscriptions p.
Proof.
  apply (declined_prompt_exits (boot sampleConfig "init") 0 "4e8d"
           singleSource).
  - reflexivity.
  - left. reflexivity.
Defined.

(** ** The authorization link and the token *)

Lemma adds_refl P p : adds P p p.
Proof. exists []. by rewrite app_nil_r. Qed.

Lemma adds_output P p q q' :
  output q' = output q → adds P p q → adds P p q'.
Proof. intros Hout (new & Hnew & HP). exists new. by rewrite Hout. Qed.

Lemma adds_emit (P : Effect → Prop) e p q :
  P e → adds P p q → adds P p (emit e q).
Proof.
  intros He (new & Hnew & HP). unfold emit.
  destruct (exited q); [by exists new|].
  exists (new ++ [e]). simpl. rewrite Hnew, <- app_assoc. split; [done|].
  apply Forall_app. split; [done|]. by constructor.
Qed.

Lemma adds_perform (P : Effect → Prop) effects : ∀ p q,
  Forall P effects → adds P p q → adds P p (perform effects q).
Proof.
  induction effects as [|e effects IH]; intros p q Heffects Hq; [done|].
  apply Forall_cons in Heffects as [He Heffects]. rewrite perform_cons.
  by apply IH, adds_emit.
Qed.

Lemma exchange_effects_closed response effects accessToken :
  exchangeForAccessToken response = Some (effects, accessToken) →
  Forall (λ e, opens e = false) effects.
Proof.
  unfold exchangeForAccessToken.
  repeat case_match; intros [= <- <-]; by repeat constructor.
Qed.

Lemma iteration_effects_closed acc r :
  Forall (λ e, opens e = false) (iteration acc r).1.
Proof.
  eapply Forall_impl; [apply iteration_effects|].
  intros e [_ He]. by destruct e.
Qed.

Lemma loginDestination_effects_closed accessToken subs :
  Forall (λ e, opens e = false) (loginDestination accessToken subs).1.1
  ∧ Forall (λ e, opens e = false) (loginDestination accessToken subs).1.2.
Proof.
  destruct (loginDestination_cases accessToken subs)
    as (deferred & k & -> & Hdeferred). simpl. split.
  - do 2 (constructor; [done|]).
    induction subs as [|[s|] subs IH]; csimpl; [done| |done].
    by constructor.
  - by destruct Hdeferred as [->| [->| ->]]; repeat constructor.
Qed.

Lemma settle_effects_closed tasks i success :
  Forall (λ e, opens e = false) (settle tasks i success).1.
Proof.
  unfold settle. repeat case_match; simpl; repeat constructor;
    by destruct success.
Qed.

(** Handlers other than the prompt continuations open no browser. *)
Lemma step_adds e p :
  answers_prompt e = false → adds (λ e, opens e = false) p (step e p).
Proof.
  intros He. unfold step. destruct (exited p); [apply adds_refl|].
  destruct e as [code responseState| |t response|t response|t login uuid
                |t i response]; try done.
  - unfold callback. repeat case_match; try by apply adds_emit, adds_refl.
    all: eapply adds_output; [|by apply adds_emit, adds_refl]; done.
  - by apply adds_emit, adds_refl.
  - destruct (pending p !! t) as [[]|]; try apply adds_refl.
    unfold callback_resume.
    pose proof (exchange_effects_closed response) as Hexchange.
    destruct (exchangeForAccessToken response) as [[effects accessToken]|];
      [|by apply adds_emit; [|eapply adds_output, adds_refl]].
    specialize (Hexchange effects accessToken eq_refl).
    destruct accessToken as [accessToken|].
    + assert (adds (λ e, opens e = false) p (perform effects (unpark t p)))
        as H0 by (apply adds_perform; [done|]; by eapply adds_output, adds_refl).
      set (p0 := perform effects (unpark t p)) in *.
      assert (adds (λ e, opens e = false) p
                (if decide (applicationState p0 = login_source)
                 then loginSource accessToken p0 else p0)) as H1.
      { destruct (decide _); [|done]. unfold loginSource.
        eapply adds_output; [|apply adds_perform; [|exact H0]]; [done|].
        by repeat constructor. }
      set (p1 := if decide _ then _ else _) in *.
      cbv zeta. destruct (decide (applicationState p1 = login_destination)).
      * unfold loginDestination_start.
        destruct (loginDestination_effects_closed accessToken
                    (subscriptions p1)) as [Hstarted Hdeferred].
        destruct (loginDestination _ _) as [[started deferred] [tasks|]];
          cbn [fst snd] in *; apply adds_perform; try done;
          apply adds_emit; try done.
        -- apply (adds_output _ _ (perform started p1)); [done|].
           by apply adds_perform.
        -- by apply adds_perform.
      * apply adds_perform; [done|]. by apply adds_emit.
    + apply adds_emit; [done|]. apply adds_perform; [done|].
      by eapply adds_output, adds_refl.
  - destruct (pending p !! t) as [[| |accessToken acc| |]|]; try apply adds_refl.
    pose proof (iteration_effects_closed acc response) as Hiter.
    destruct (iteration acc response) as [effects [result|nextPage acc'|acc']];
      simpl in Hiter.
    + unfold loginSource_resume. destruct (bool_decide _).
      * apply adds_perform; [by repeat constructor|].
        eapply adds_output; [|apply adds_perform; [exact Hiter|]]; [done|].
        by eapply adds_output, adds_refl.
      * eapply adds_output;
          [|apply adds_perform; [|eapply adds_output;
              [|apply adds_perform; [exact Hiter|]]]]; try done.
        -- by repeat constructor.
        -- by eapply adds_output, adds_refl.
    + eapply adds_output; [|apply adds_perform; [|apply adds_refl]]; [done|].
      apply Forall_app. split; [done|]. by repeat constructor.
    + apply adds_perform; [|by eapply adds_output, adds_refl].
      apply Forall_app. split; [done|]. by repeat constructor.
  - destruct (pending p !! t) as [[| | | |tasks]|]; try apply adds_refl.
    pose proof (settle_effects_closed tasks i (ok response)) as Hsettle.
    destruct (settle tasks i (ok response)) as [effects [tasks'|]];
      simpl in Hsettle; apply adds_perform; try done;
      by eapply adds_output, adds_refl.
Qed.

Lemma last_opened_closed out new :
  Forall (λ e, opens e = false) new →
  last_opened (out ++ new) = last_opened out.
Proof.
  intros Hnew. unfold last_opened. rewrite omap_app.
  assert (omap (λ e, match e with OpenBrowser url => Some url | _ => None end)
            new = []) as ->; [|by rewrite app_nil_r].
  induction Hnew as [|e new He _ IH]; [done|]. by destruct e.
Qed.

Lemma last_opened_snoc out url :
  last_opened (out ++ [OpenBrowser url]) = Some url.
Proof. unfold last_opened. rewrite omap_app. simpl. apply last_snoc. Qed.

Lemma startLogin_link uuid p :
  exited p = None →
  oauthState (startLogin uuid p) = uuid
  ∧ config (startLogin uuid p) = config p
  ∧ output (startLogin uuid p)
    = output p ++ [OpenBrowser (authorizationLink (config p) uuid)].
Proof. intros Hp. unfold startLogin. by rewrite emit_quiet. Qed.

(** The link invariant: the last link opened, if any, carries the current
    [oauthState]; before the first one the variable holds its initial
    value [u]. *)
Lemma step_link c u e p :
  config p = c →
  match last_opened (output p) with
  | Some url => url = authorizationLink c (oauthState p)
  | None => oauthState p = u
  end →
  config (step e p) = c
  ∧ match last_opened (output (step e p)) with
    | Some url => url = authorizationLink c (oauthState (step e p))
    | None => oauthState (step e p) = u
    end.
Proof.
  intros Hc Hlink.
  destruct (step_variables e p) as (Hconfig & _ & Hsession & _).
  split; [congruence|].
  destruct (answers_prompt e) eqn:He.
  - unfold step. destruct (exited p) eqn:Hp; [done|].
    destruct e as [| | | |t login uuid|]; try done.
    assert (∀ q, exited q = None → output q = output p →
              oauthState q = oauthState p → config q = c →
              match last_opened (output (emit (ProcessExit 0) q)) with
              | Some url =>
                url = authorizationLink c (oauthState (emit (ProcessExit 0) q))
              | None => oauthState (emit (ProcessExit 0) q) = u
              end) as Hdecline.
    { intros q Hq Hout Htok _. unfold emit. rewrite Hq. simpl.
      rewrite Hout, Htok, last_opened_closed; [done|by repeat constructor]. }
    assert (∀ q, exited q = None → output q = output p → config q = c →
              match last_opened (output (startLogin uuid q)) with
              | Some url =>
                url = authorizationLink c (oauthState (startLogin uuid q))
              | None => oauthState (startLogin uuid q) = u
              end) as Hconfirm.
    { intros q Hq Hout Hcq.
      destruct (startLogin_link uuid q Hq) as (-> & _ & ->).
      by rewrite last_opened_snoc, Hcq. }
    unfold promptSourceLogin_resume, promptDestinationLogin_resume.
    destruct (pending p !! t) as [[]|]; try done; destruct login; simpl;
      (by apply Hconfirm) || (by apply Hdecline).
  - destruct (Hsession eq_refl) as [_ ->].
    destruct (step_adds e p He) as (new & -> & Hnew).
    by rewrite last_opened_closed.
Qed.

(** X7: in every run from start-up, [config] is the one loaded at start,
    and the link most recently opened in the browser is the authorization
    link built from it with the current [oauthState] as [state]; as long as
    no link was opened [oauthState] still holds its initial value. *)
Theorem opened_link_carries_token c u events :
  let p := run events (boot c u) in
  config p = c
  ∧ match last_opened (output p) with
    | Some url => url = authorizationLink c (oauthState p)
    | None => oauthState p = u
    end.
Proof.
  assert (∀ events p,
            config p = c →
            match last_opened (output p) with
            | Some url => url = authorizationLink c (oauthState p)
            | None => oauthState p = u
            end →
            config (run events p) = c
            ∧ match last_opened (output (run events p)) with
              | Some url => url = authorizationLink c (oauthState (run events p))
              | None => oauthState (run events p) = u
              end) as Hrun.
  { clear events. induction events as [|e events IH]; intros p Hc Hlink;
      [done|].
    rewrite run_cons. destruct (step_link c u e p Hc Hlink). by apply IH. }
  by apply Hrun.
Qed.

(** ** The empty source account *)

Lemma emit_pending e p : pending (emit e p) = pending p.
Proof. by destruct (emit_fields e p) as (_ & _ & _ & -> & _). Qed.

Lemma step_source_prompt e p t :
  pending (step e p) !! t = Some PromptingSource →
  pending p !! t = Some PromptingSource.
Proof.
  unfold step. destruct (exited p); [done|].
  destruct e; unfold_handlers; repeat case_match; simplify_eq;
    repeat (progress (cbn [pending]; rewrite ?emit_pending, ?perform_pending));
    intros Hsrc;
    repeat first
      [ done
      | rewrite lookup_insert_Some in Hsrc;
        destruct Hsrc as [[_ ?]|[_ Hsrc]]; [done|]
      | rewrite lookup_delete_Some in Hsrc; destruct Hsrc as [_ Hsrc] ].
Qed.

Lemma emit_alive e p :
  exited p = None → output (emit e p) = output p ++ [e].
Proof. intros Hp. by destruct (emit_output e p Hp). Qed.

Lemma opened_app l1 l2 : opened (l1 ++ l2) = opened l1 ++ opened l2.
Proof. apply omap_app. Qed.

Lemma opened_closed new :
  Forall (λ e, opens e = false) new → opened new = [].
Proof. induction 1 as [|e new He _ IH]; [done|]. by destruct e. Qed.

Lemma step_source_login_only e p :
  source_login_only p → source_login_only (step e p).
Proof.
  intros [Hfirst Hsource]. split.
  { intros t Ht. by apply Hfirst, (step_source_prompt e). }
  intros Hst'.
  assert (applicationState p = login_source) as Hst
    by (destruct (step_variables e p) as (_ & _ & _ & [? | ?]); congruence).
  destruct (Hsource Hst) as [Hnone Hle].
  destruct (answers_prompt e) eqn:He.
  - destruct e as [| | | |t login uuid|]; try done.
    revert Hst'. unfold step. destruct (exited p) eqn:Hp; [by intros _|].
    destruct (pending p !! t) as [[]|] eqn:Ht; try by intros _.
    + apply Hfirst in Ht as Ht0. subst t. specialize (Hnone Ht).
      unfold promptSourceLogin_resume, startLogin.
      destruct login; cbn [negb]; intros _;
        rewrite emit_pending, emit_alive by done;
        cbn [pending output unpark set_pending set_oauthState];
        rewrite lookup_delete_eq, opened_app, Hnone; simpl; split; (done || lia).
    + unfold promptDestinationLogin_resume, startLogin.
      destruct login; cbn [negb].
      * by rewrite emit_applicationState.
      * intros _. rewrite emit_pending, emit_alive by done.
        cbn [pending output unpark set_pending].
        rewrite opened_app. simpl. rewrite app_nil_r. split; [|done].
        intros [_ H0]%lookup_delete_Some. by apply Hnone.
  - destruct (step_adds e p He) as (new & -> & Hnew).
    rewrite opened_app, (opened_closed _ Hnew), app_nil_r.
    split; [|done]. intros H0. by apply Hnone, (step_source_prompt e).
Qed.

Lemma run_source_login_only events : ∀ p,
  source_login_only p → source_login_only (run events p).
Proof.
  induction events as [|e events IH]; intros p Hp; [done|].
  rewrite run_cons. by apply IH, step_source_login_only.
Qed.

Lemma boot_source_login_only c u : source_login_only (boot c u).
Proof.
  split; [|intros _; split; [done|simpl; lia]].
  intros t Ht. simpl in Ht.
  by apply lookup_singleton_Some in Ht as [<- _].
Qed.

Lemma run_link c u events : ∀ p,
  config p = c →
  match last_opened (output p) with
  | Some url => url = authorizationLink c (oauthState p)
  | None => oauthState p = u
  end →
  match last_opened (output (run events p)) with
  | Some url => url = authorizationLink c (oauthState (run events p))
  | None => oauthState (run events p) = u
  end.
Proof.
  induction events as [|e events IH]; intros p Hc Hlink; [done|].
  rewrite run_cons. destruct (step_link c u e p Hc Hlink). by apply IH.
Qed.

(** C6 as stated fails: while one source flow is still enumerating, another
    one accepted with the same [state] can be confirmed; the destination
    prompt has then been shown, the token regenerated and the destination
    link opened when the first enumeration comes back empty and the process
    exits with status 1. *)
Lemma empty_source_after_destination_link :
  let p := run overlappingSources (boot sampleConfig "init") in
  let q := run [PageResponse 4 (page None [])] p in
  exited p = None
  ∧ applicationState p = login_destination
  ∧ pending p !! 4 = Some (Enumerating "ya29.b" [])
  ∧ iteration [] (page None []) = ([], LoopReturn [])
  ∧ exited q = Some 1%Z
  ∧ oauthState q = "91c2"
  ∧ drop 12 (output q) =
      [ConsoleLog "Found 1 subscriptions.";
       InquirerConfirm
         "Press enter to login to your destination YouTube account which will automatically subscribe to 1 channels.";
       OpenBrowser (authorizationLink sampleConfig "91c2");
       ConsoleLog "No subscriptions found! Please try again with an account that is subscribed to other channels.";
       ProcessExit 1].
Proof. do 6 (split; [vm_compute; reflexivity|]). vm_compute. reflexivity. Qed.

(** C6, amended: in a run from start-up, when an enumeration resolves to the
    empty array (after a last page, or after a failure with a JSON body,
    which logs one diagnostic), the process logs the condition and exits
    with status 1; the flow prompts for nothing and opens nothing, phase and
    token stay as they are, and whatever happens afterwards nothing more is
    emitted.  If the phase is still [login_source] at that moment, no
    destination link was ever opened: the browser was opened at most once
    in the whole run, with the link of the source login, which carries the
    current token. *)
Theorem empty_source_exits c u events t accessToken acc response effects later :
  let p := run events (boot c u) in
  exited p = None →
  pending p !! t = Some (Enumerating accessToken acc) →
  iteration acc response = (effects, LoopReturn []) →
  let q := run (PageResponse t response :: later) p in
  exited q = Some 1%Z
  ∧ output q =
      output p ++ effects
      ++ [ConsoleLog "No subscriptions found! Please try again with an account that is subscribed to other channels.";
          ProcessExit 1]
  ∧ (effects = []
     ∨ effects = [ConsoleLogDiagnostic "Failed to load subscriptions"
                    (Some (status response))])
  ∧ applicationState q = applicationState p
  ∧ oauthState q = oauthState p
  ∧ (applicationState p = login_source →
     opened (output q) = []
     ∨ opened (output q) = [authorizationLink c (oauthState q)]).
Proof.
  intros p Hp Ht Hit q.
  destruct (empty_enumeration_exits p t accessToken acc response effects later
              Hp Ht Hit) as (Hexit & Hout & Hquiet & Hst & Htok).
  fold q in Hexit, Hout, Hst, Htok.
  split; [done|]. split; [done|]. split.
  { revert Hit. unfold iteration.
    destruct (negb (ok response)), (json response) as [body|]; try done.
    - intros [= <- _]. by right.
    - destruct (truthy _); intros [= <- _]. by left. }
  split; [done|]. split; [done|]. intros Hsource.
  destruct (run_source_login_only events _ (boot_source_login_only c u))
    as [_ Hlogin].
  destruct (Hlogin Hsource) as [_ Hle]. fold p in Hle.
  pose proof (run_link c u events (boot c u) eq_refl eq_refl) as Hlink.
  fold p in Hlink.
  assert (opened (output q) = opened (output p)) as ->.
  { rewrite Hout, opened_app, (opened_closed (effects ++ _)), app_nil_r; [done|].
    eapply Forall_impl; [exact Hquiet|]. intros e He. by destruct e. }
  rewrite Htok. unfold last_opened in Hlink. fold (opened (output p)) in Hlink.
  destruct (opened (output p)) as [|url [|url' l]]; [by left| |simpl in Hle; lia].
  right. simpl in Hlink. by rewrite Hlink.
Qed.

Lemma empty_source_exits_witness :
  let p := run (take 3 overlappingSources) (boot sampleConfig "init") in
  let q := run (PageResponse 2 failedPage :: lateEnumeration) p in
  exited q = Some 1%Z
  ∧ output q =
      output p
      ++ [ConsoleLogDiagnostic "Failed to load subscriptions" (Some 403%Z)]
      ++ [ConsoleLog "No subscriptions found! Please try again with an account that is subscribed to other channels.";
          ProcessExit 1]
  ∧ applicationState q = login_source
  ∧ oauthState q = "4e8d"
  ∧ (opened (output q) = []
     ∨ opened (output q) = [authorizationLink sampleConfig "4e8d"]).
Proof.
  destruct (empty_source_exits sampleConfig "init" (take 3 overlappingSources)
              2 "ya29.a" [] failedPage
              [ConsoleLogDiagnostic "Failed to load subscriptions" (Some 403%Z)]
              lateEnumeration)
    as (Hexit & Hout & _ & Hst & Htok & Hopened); [reflexivity..|].
  split; [exact Hexit|]. split; [exact Hout|].
  split; [exact Hst|]. split; [exact Htok|].
  apply Hopened. reflexivity.
Defined.

(** ** The enumeration as a whole *)

(** X8: [getAllSubscriptions] reads the responses up to the first one that
    fails or carries no token and ignores whatever would follow: it issues
    one request per response read, each with the token of the page before.
    How it ends depends on that response alone: if its body is not JSON the
    call rejects; if it is a successful page the call resolves to the
    entries of all pages read; if it is a failure, one diagnostic is logged
    and the call resolves to the entries of the pages before. *)
Theorem enumeration_reads_up_to_first_stop accessToken pre r rest :
  Forall (λ r, continues r = true) pre →
  continues r = false →
  let requests := fetchPage accessToken <$> (None :: (page_token <$> pre)) in
  let acc := mjoin (page_entries <$> pre) in
  getAllSubscriptions accessToken (pre ++ r :: rest) =
    match json r with
    | None => (requests, Threw acc)
    | Some _ =>
      if ok r then (requests, Resolved (acc ++ page_entries r))
      else (requests
              ++ [ConsoleLogDiagnostic "Failed to load subscriptions"
                    (Some (status r))],
            Resolved acc)
    end.
Proof.
  intros Hpre Hr requests acc. unfold getAllSubscriptions.
  rewrite (enumerate_stops _ _ _ _ _ _ Hpre Hr), app_nil_l. fold acc requests.
  destruct (json r) as [body|] eqn:Hjson.
  - assert (is_Some (json r)) as Hparsed by (rewrite Hjson; by eexists).
    destruct (ok r) eqn:Hok.
    + unfold continues in Hr. rewrite Hok in Hr. simpl in Hr.
      rewrite (iteration_last_page _ _ Hok Hparsed Hr). simpl.
      by rewrite app_nil_r.
    + by rewrite (iteration_failure _ _ Hok Hparsed).
  - rewrite (iteration_throws _ _ Hjson). simpl. by rewrite app_nil_r.
Qed.

Lemma enumeration_reads_up_to_first_stop_witness :
  getAllSubscriptions "ya29.a"
    ([page (Some "CAUQAA") ["a"]] ++ page None ["b"] :: [page None ["c"]]) =
    (fetchPage "ya29.a" <$> [None; Some "CAUQAA"],
     Resolved [Some (channel "a"); Some (channel "b")]).
Proof.
  apply (enumeration_reads_up_to_first_stop "ya29.a"
           [page (Some "CAUQAA") ["a"]] (page None ["b"]) [page None ["c"]]).
  - repeat constructor.
  - reflexivity.
Defined.

(** X9: the source flow from the first page to the destination login: when
    the pages of an enumeration have arrived and the array is not empty,
    the process logs the count and asks for confirmation; once confirmed it
    is in [login_destination] with a new token, the link opened, and
    [subscriptions] holding what the pages contributed, in order. *)
Theorem source_flow_reaches_destination p t accessToken pre final uuid :
  exited p = None →
  pending p !! t = Some (Enumerating accessToken []) →
  Forall (λ r, continues r = true) pre →
  ok final = true →
  is_Some (json final) →
  truthy (page_token final) = false →
  let result := mjoin (page_entries <$> (pre ++ [final])) in
  result ≠ [] →
  let q :=
    run ((PageResponse t <$> (pre ++ [final]))
         ++ [PromptAnswer (fresh p) true uuid]) p in
  subscriptions q = result
  ∧ applicationState q = login_destination
  ∧ oauthState q = uuid
  ∧ exited q = None
  ∧ output q =
      output p
      ++ (fetchPage accessToken <$> (page_token <$> pre))
      ++ [ConsoleLog ("Found " +:+ pretty (length result)
                      +:+ " subscriptions.");
          InquirerConfirm
            ("Press enter to login to your destination YouTube account which will automatically subscribe to "
             +:+ pretty (length result) +:+ " channels.");
          OpenBrowser (authorizationLink (config p) uuid)].
Proof.
  intros Hp Ht Hpre Hok Hjson Hlast result Hresult q. subst q.
  rewrite run_app, (run_enumerate accessToken t _ p None [] Hp Ht).
  rewrite (enumerate_app accessToken pre None [] [final] Hpre).
  cbn [enumerate]. rewrite app_nil_l, (iteration_last_page _ _ Hok Hjson Hlast).
  assert ((fetchPage accessToken <$>
             take (length pre) (None :: (page_token <$> pre)))
          ++ [fetchPage accessToken
                (default None (last (page_token <$> pre)))]
          = fetchPage accessToken <$> (None :: (page_token <$> pre))) as ->.
  { rewrite <- (take_snoc_last None (page_token <$> pre)) at 2.
    by rewrite fmap_app, length_fmap. }
  rewrite fmap_cons. cbn [tail].
  assert (mjoin (page_entries <$> pre) ++ page_entries final = result) as ->.
  { subst result. rewrite fmap_app, join_app. simpl. by rewrite app_nil_r. }
  set (requests := fetchPage accessToken <$> (page_token <$> pre)).
  assert (Forall (λ e, exits e = false) requests) as Hrequests.
  { subst requests. apply Forall_fmap, Forall_forall. by intros ? _. }
  rewrite (perform_quiet requests (unpark t p)) by done.
  unfold loginSource_resume. cbn [subscriptions set_subscriptions].
  rewrite bool_decide_eq_false_2 by (by destruct result).
  rewrite perform_quiet by (done || by repeat constructor).
  unfold park, promptDestinationLogin_message.
  cbn [applicationState oauthState config subscriptions pending fresh output
       unpark set_pending set_subscriptions].
  unfold run, foldl, step. cbn [exited pending].
  rewrite lookup_insert_eq.
  unfold promptDestinationLogin_resume, startLogin. cbn [negb].
  rewrite emit_quiet by done. simpl. by rewrite <- !app_assoc.
Qed.

Lemma source_flow_reaches_destination_witness :
  let p := run (take 3 singleSource) (boot sampleConfig "init") in
  let result :=
    mjoin (page_entries <$> ([page (Some "CAUQAA") ["a"]] ++ [page None ["b"]]))
  in
  let q :=
    run ((PageResponse 2 <$> ([page (Some "CAUQAA") ["a"]] ++ [page None ["b"]]))
         ++ [PromptAnswer (fresh p) true "91c2"]) p in
  subscriptions q = result
  ∧ applicationState q = login_destination
  ∧ oauthState q = "91c2"
  ∧ exited q = None
  ∧ output q =
      output p
      ++ (fetchPage "ya29.a" <$> (page_token <$> [page (Some "CAUQAA") ["a"]]))
      ++ [ConsoleLog ("Found " +:+ pretty (length result)
                      +:+ " subscriptions.");
          InquirerConfirm
            ("Press enter to login to your destination YouTube account which will automatically subscribe to "
             +:+ pretty (length result) +:+ " channels.");
          OpenBrowser (authorizationLink (config p) "91c2")].
Proof.
  apply (source_flow_reaches_destination
           (run (take 3 singleSource) (boot sampleConfig "init")) 2 "ya29.a"
           [page (Some "CAUQAA") ["a"]] (page None ["b"]) "91c2").
  - reflexivity.
  - reflexivity.
  - repeat constructor.
  - reflexivity.
  - by eexists.
  - reflexivity.
  - discriminate.
Defined.

(** ** The Replicator on an array with an [undefined] entry *)

(** X10: if the collected array holds an [undefined] entry, the Replicator
    never reports completion: whatever answers arrive and in whatever order,
    no "Done!" is logged and [process.exit] is not called. *)
Theorem undefined_entry_blocks_completion accessToken subs schedule :
  None ∈ subs →
  ∃ effects tasks,
    replicate accessToken subs schedule = (effects, Some tasks)
    ∧ Forall (λ e, exits e = false ∧ e ≠ ConsoleLog "Done!") effects.
Proof.
  intros Hundefined.
  assert (ItemRejected ∈ item_task <$> subs) as Hrejected
    by apply (list_elem_of_fmap_2 item_task _ None Hundefined).
  unfold replicate, loginDestination.
  assert (existsb is_rejected (item_task <$> subs) = true) as ->.
  { apply existsb_exists. exists ItemRejected. split; [|done].
    by apply list_elem_of_In. }
  destruct (settle_all_rejected schedule _ Hrejected)
    as (more & tasks & -> & Hmore).
  eexists _, _. split; [done|].
  apply Forall_app. split; [|by constructor].
  apply Forall_app. split.
  - repeat constructor; try done; unfold loggedInDestination; discriminate.
  - clear. induction subs as [|[s|] subs IH]; csimpl; [done| |done].
    by constructor.
Qed.

Lemma undefined_entry_blocks_completion_witness :
  ∃ effects tasks,
    replicate "ya29.c" [Some (channel "a"); None] [(0, true)]
    = (effects, Some tasks)
    ∧ Forall (λ e, exits e = false ∧ e ≠ ConsoleLog "Done!") effects.
Proof.
  apply (undefined_entry_blocks_completion "ya29.c"
           [Some (channel "a"); None] [(0, true)]).
  apply list_elem_of_lookup. exists 1. reflexivity.
Defined.


(** ** Credential store *)

Section CredentialStore.
Context (JSON_parse : string → option (gmap string JsValue)).
Context (JSON_stringify : gmap string JsValue → string).

(** X12: when no configuration file exists, the credentials are prompted
    for and the configuration written to the file is the five defaults
    (port 8080 and the Google endpoints) plus whatever else the prompt
    returned: a default wins over an answer of the same name. *)
Theorem created_config_defaults_win files credentials :
  files !! configFilePath = None →
  let r := loadOrCreateConfig JSON_parse JSON_stringify files credentials in
  ∃ config,
    loaded_config r = Some config
    ∧ loaded_prompted r = true
    ∧ loaded_files r = <[configFilePath := JSON_stringify config]> files
    ∧ (∀ k v, defaultConfig !! k = Some v → config !! k = Some v)
    ∧ (∀ k, defaultConfig !! k = None → config !! k = credentials !! k)
    ∧ config !! "port" = Some (JsNumber 8080)
    ∧ dom config = dom defaultConfig ∪ dom credentials.
Proof.
  intros Hfile r. subst r. unfold loadOrCreateConfig. rewrite Hfile.
  exists (spread credentials defaultConfig). simpl.
  assert (∀ k v, defaultConfig !! k = Some v →
            spread credentials defaultConfig !! k = Some v) as Hdefault.
  { intros k v Hk. unfold spread. by apply lookup_union_Some_l. }
  repeat split; try done.
  - intros k Hk. unfold spread. by rewrite lookup_union_r.
  - by apply Hdefault.
  - unfold spread. by rewrite dom_union_L.
Qed.

(** X13: the configuration file is written at most once: after a first run
    that created it, a later run finds it, neither prompts nor writes, and
    returns what [JSON.parse] makes of the stored text, with no default
    applied to it. *)
Theorem config_file_written_once files credentials credentials' :
  files !! configFilePath = None →
  let first := loadOrCreateConfig JSON_parse JSON_stringify files credentials in
  let second :=
    loadOrCreateConfig JSON_parse JSON_stringify (loaded_files first)
      credentials' in
  loaded_prompted second = false
  ∧ loaded_files second = loaded_files first
  ∧ loaded_config second
    = JSON_parse (JSON_stringify (spread credentials defaultConfig)).
Proof.
  intros Hfile first second.
  assert (first =
          mkLoaded (Some (spread credentials defaultConfig))
            (<[configFilePath :=
                 JSON_stringify (spread credentials defaultConfig)]> files)
            true) as Hfirst.
  { subst first. unfold loadOrCreateConfig. by rewrite Hfile. }
  subst second. rewrite Hfirst. cbn [loaded_files].
  unfold loadOrCreateConfig. by rewrite lookup_insert_eq.
Qed.
End CredentialStore.

Lemma created_config_defaults_win_witness :
  let credentials : gmap string JsValue :=
    {[ "clientId" := JsString "client"; "clientSecret" := JsString "secret";
       "port" := JsNumber 9090 ]} in
  let r := loadOrCreateConfig (λ _, None) (λ _, "{}") ∅ credentials in
  ∃ config,
    loaded_config r = Some config
    ∧ loaded_prompted r = true
    ∧ loaded_files r = <[configFilePath := "{}"]> ∅
    ∧ (∀ k v, defaultConfig !! k = Some v → config !! k = Some v)
    ∧ (∀ k, defaultConfig !! k = None → config !! k = credentials !! k)
    ∧ config !! "port" = Some (JsNumber 8080)
    ∧ dom config = dom defaultConfig ∪ dom credentials.
Proof.
  intros credentials.
  apply (created_config_defaults_win (λ _, None) (λ _, "{}") ∅ credentials).
  reflexivity.
Defined.

Lemma config_file_written_once_witness :
  let first := loadOrCreateConfig (λ _, None) (λ _, "{}") ∅ ∅ in
  let second :=
    loadOrCreateConfig (λ _, None) (λ _, "{}") (loaded_files first) ∅ in
  loaded_prompted second = false
  ∧ loaded_files second = loaded_files first
  ∧ loaded_config second = None.
Proof.
  apply (config_file_written_once (λ _, None) (λ _, "{}") ∅ ∅ ∅).
  reflexivity.
Defined.
